(** * Nuzlocke timeline page: a shallow embedding of [script.js]

    The page script renders a run's events grouped by episode, keeps the
    collapsed/expanded state of every episode section in [localStorage],
    and resolves permalinks of the form [#episode-5?spoiler=0].

    Conventions of the embedding.
    - A JavaScript string is a Rocq [string] (its bytes).  [toLowerCase]
      and the whitespace class [\s] are given on ASCII, which is what
      species names, event types and timestamps of the data files use.
    - An episode number is an integer ([Z]); the only other Number the
      script can manufacture for the collapsed set is [NaN].
    - [null]/[undefined]/absent fields are [None].
    - Host functions whose text is not part of the script ([JSON.parse],
      [JSON.stringify], [Number] on strings and objects, [localeCompare],
      [URLSearchParams]) are the fields of the class [Host]; what a proof
      uses of them is a hypothesis of its section.
    - The page is taken to have the elements the script looks up
      ([#timeline], the banner and the contents of every section), so the
      guards that return early without them are not represented; neither
      are scroll positions, measured heights and timers. *)

From Stdlib Require Import ZArith Lia List Ascii String Sorted Permutation.
From Stdlib Require Import DecimalString DecimalZ.
From stdpp Require Import base option list strings pretty gmap sets sorting.

Set Warnings "-register-all,-clear-no-such-hyp".

Local Open Scope string_scope.
Local Open Scope list_scope.
Local Open Scope Z_scope.

(** ** JavaScript string primitives used by the script *)

Module JSString.

Definition code (c : ascii) : N := N_of_ascii c.

Definition is_upper (c : ascii) : bool := ((65 <=? code c) && (code c <=? 90))%N.
Definition is_lower (c : ascii) : bool := ((97 <=? code c) && (code c <=? 122))%N.
Definition is_digit (c : ascii) : bool := ((48 <=? code c) && (code c <=? 57))%N.

(** [\s] on ASCII: TAB, LF, VT, FF, CR and SPACE. *)
Definition is_space (c : ascii) : bool :=
  (((9 <=? code c) && (code c <=? 13)) || (code c =? 32))%N.

Definition lower_char (c : ascii) : ascii :=
  if is_upper c then ascii_of_N (code c + 32) else c.

(** [s.toLowerCase()] *)
Definition toLowerCase (s : string) : string :=
  string_of_list_ascii (List.map lower_char (list_ascii_of_string s)).

Fixpoint drop_spaces (l : list ascii) : list ascii :=
  match l with
  | c :: l' => if is_space c then drop_spaces l' else l
  | [] => []
  end.

(** [s.trim()] *)
Definition trim (s : string) : string :=
  string_of_list_ascii
    (rev (drop_spaces (rev (drop_spaces (list_ascii_of_string s))))).

(** [s.replace(/['’]/g, "")]: U+0027, and U+2019 as its three bytes
    226, 128, 153. *)
Fixpoint strip_apostrophes (l : list ascii) : list ascii :=
  match l with
  | [] => []
  | c :: l' =>
      if (code c =? 39)%N then strip_apostrophes l'
      else
        match l' with
        | c2 :: c3 :: l'' =>
            if ((code c =? 226) && (code c2 =? 128) && (code c3 =? 153))%N
            then strip_apostrophes l''
            else c :: strip_apostrophes l'
        | _ => c :: strip_apostrophes l'
        end
  end.

(** [s.replace(/\s+/g, "-")]: [in_run] tells that the previous
    character belonged to the whitespace run already replaced. *)
Fixpoint hyphenate_from (in_run : bool) (l : list ascii) : list ascii :=
  match l with
  | [] => []
  | c :: l' =>
      if is_space c
      then (if in_run then hyphenate_from true l'
            else "-"%char :: hyphenate_from true l')
      else c :: hyphenate_from false l'
  end.

Definition hyphenate (l : list ascii) : list ascii := hyphenate_from false l.

(** The class [[a-z0-9\-]]. *)
Definition is_filename_char (c : ascii) : bool :=
  is_lower c || is_digit c || (code c =? 45)%N.

(** [s.replace(/[^a-z0-9\-]/g, "")] *)
Definition keep_filename_chars (l : list ascii) : list ascii :=
  List.filter is_filename_char l.

(** JavaScript truthiness of a possibly absent string. *)
Definition truthy (o : option string) : bool :=
  match o with
  | Some s => negb (String.eqb s "")
  | None => false
  end.

(** [o || d] for strings *)
Definition or_else (o : option string) (d : string) : string :=
  match o with
  | Some s => if String.eqb s "" then d else s
  | None => d
  end.

End JSString.

(** ** Configuration *)

Definition RUN_INDEX_PATH : string := "data/runs/index.json".
Definition RUNS_BASE_PATH : string := "data/runs/".
Definition SPRITES_PATH : string := "sprites/".
Definition BADGES_PATH : string := SPRITES_PATH +:+ "badges/".
Definition DEFAULT_RUN_ID : string := "run-02".
Definition COLLAPSED_KEY_PREFIX : string := "nuz_timeline_collapsed:".

(** ** Image file names *)

Definition normalizeName (s : string) : string :=
  string_of_list_ascii
    (JSString.keep_filename_chars
       (JSString.hyphenate
          (JSString.strip_apostrophes
             (list_ascii_of_string (JSString.trim (JSString.toLowerCase s)))))).

Definition speciesToFilename (name : option string) : option string :=
  if JSString.truthy name
  then match name with Some s => Some (normalizeName s) | None => None end
  else None.

Definition spriteUrlFor (species : option string) : option string :=
  let filename := speciesToFilename species in
  if JSString.truthy filename
  then match filename with
       | Some f => Some (SPRITES_PATH +:+ f +:+ ".png")
       | None => None
       end
  else None.

Definition badgeUrlFor (name : option string) : option string :=
  let filename := speciesToFilename name in
  if JSString.truthy filename
  then match filename with
       | Some f => Some (BADGES_PATH +:+ f +:+ ".png")
       | None => None
       end
  else None.

(** ** Numbers and JSON values *)

(** The Numbers that can reach the collapsed set: an integer episode
    number, or [NaN] (what [Number] makes of a non-numeric value). *)
Inductive jsnum : Type :=
  | Int (z : Z)
  | NaN.

#[global] Instance jsnum_eq_dec : EqDecision jsnum.
Proof. solve_decision. Defined.

#[global] Instance jsnum_countable : Countable jsnum :=
  inj_countable'
    (λ n, match n with Int z => Some z | NaN => None end)
    (λ o, match o with Some z => Int z | None => NaN end)
    (λ n, match n with Int _ => eq_refl | NaN => eq_refl end).

(** What [JSON.parse] can return. *)
Inductive jsval : Type :=
  | JNull
  | JBool (b : bool)
  | JNum (n : jsnum)
  | JStr (s : string)
  | JArr (items : list jsval)
  | JObj (fields : list (string * jsval)).

(** ** Host functions

    The browser functions the script calls.  [JSON_parse] answers [None]
    where [JSON.parse] throws a [SyntaxError]. *)
Class Host : Type := {
  JSON_parse : string → option jsval;
  JSON_stringify : jsval → string;
  (** [Number(s)] for a string, [Number(o)] for an array or object *)
  StringToNumber : string → jsnum;
  ObjectToNumber : jsval → jsnum;
  (** [a.localeCompare(b, undefined, {numeric: true})] *)
  localeCompare : string → string → Z;
  (** the entries of [new URLSearchParams(query)] *)
  URLSearchParams : string → list (string * string)
}.

(** ** Exceptions and [try]/[catch] *)

Inductive exn : Type :=
  | SyntaxError
  | QuotaExceededError.

Definition try_catch {A : Type} (body : exn + A) (handler : exn → A) : A :=
  match body with
  | inr a => a
  | inl e => handler e
  end.

(** ** [localStorage] *)

(** [writable = false] is a browser whose storage refuses writes (quota
    exhausted, storage disabled): [setItem] then throws. *)
Record Storage : Type := {
  items : gmap string string;
  writable : bool
}.

Definition getItem (st : Storage) (key : string) : option string :=
  items st !! key.

Definition setItem (st : Storage) (key value : string) : exn + Storage :=
  if writable st
  then inr {| items := <[key := value]> (items st); writable := writable st |}
  else inl QuotaExceededError.


Section Script.

Context {host : Host}.

(** [Number(x)] *)
Definition Number (x : jsval) : jsnum :=
  match x with
  | JNull => Int 0
  | JBool b => Int (if b then 1 else 0)
  | JNum n => n
  | JStr s => StringToNumber s
  | JArr _ | JObj _ => ObjectToNumber x
  end.

(** *** Collapsed localStorage map *)

Definition collapsedKey (runId : string) : string :=
  COLLAPSED_KEY_PREFIX +:+ runId.

(** The body of the [try] block of [loadCollapsedMap]. *)
Definition loadCollapsedMap_try (st : Storage) (runId : string)
  : exn + gset jsnum :=
  let raw := getItem st (collapsedKey runId) in
  if negb (JSString.truthy raw) then inr ∅
  else
    match JSON_parse (default "" raw) with
    | None => inl SyntaxError
    | Some (JArr arr) => inr (list_to_set (Number <$> arr))
    | Some _ => inr ∅
    end.

Definition loadCollapsedMap (st : Storage) (runId : string) : gset jsnum :=
  try_catch (loadCollapsedMap_try st runId) (λ _, ∅).

Definition saveCollapsedMap (st : Storage) (runId : string) (set : gset jsnum)
  : Storage :=
  let arr := elements set in
  try_catch
    (setItem st (collapsedKey runId) (JSON_stringify (JArr (JNum <$> arr))))
    (λ _, st).


(** *** Event records *)

(** [ev.special]: [true], a label, or an object with an optional [label]. *)
Inductive special : Type :=
  | SpecialTrue
  | SpecialString (label : string)
  | SpecialObject (label : option string).

(** The fields of an event record the timeline reads.  [ev_level] is
    [ev.pokemon?.level ?? ev.level]; [ev_failed] and [ev_illegal] say
    that one of the accepted boolean spellings of the flag is [true]. *)
Record event : Type := {
  ev_id : option string;
  ev_episode : option Z;
  ev_type : option string;
  ev_timestamp : option string;
  ev_date : option string;
  ev_notes : option string;
  ev_side : option string;
  ev_level : option Z;
  ev_nickname : option string;
  ev_failed : bool;
  ev_illegal : bool;
  ev_special : option special
}.

(** [(ev.type || "").toLowerCase()] *)
Definition typeOf (ev : event) : string :=
  JSString.toLowerCase (JSString.or_else (ev_type ev) "").

(** [ev.episode ?? 0] *)
Definition episodeOf (ev : event) : Z := default 0 (ev_episode ev).

(** [ev.timestamp || ""] *)
Definition timestampOf (ev : event) : string :=
  JSString.or_else (ev_timestamp ev) "".

(** *** Create DOM for an event *)

Definition capitalize (s : string) : string :=
  match s with
  | EmptyString => ""
  | String c r =>
      String (if JSString.is_lower c
              then ascii_of_N (JSString.code c - 32) else c) r
  end.

(** The [article] built for an ordinary event: its class list, the
    text of its header and the header's [data-ribbon]. *)
Record eventElement : Type := {
  el_classes : list string;
  el_header : string;
  el_ribbon : option string;
  el_aria_label : option string;
  el_notes : option string
}.

Definition specialTruthy (sp : option special) : bool :=
  match sp with
  | None => false
  | Some SpecialTrue => true
  | Some (SpecialString l) => negb (String.eqb l "")
  | Some (SpecialObject _) => true
  end.

Definition levelTruthy (level : option Z) : bool :=
  match level with
  | Some z => negb (z =? 0)
  | None => false
  end.

Definition withLevel (ev : event) (pre post bare : string) : string :=
  if levelTruthy (ev_level ev)
  then pre +:+ pretty (default 0 (ev_level ev)) +:+ post
  else bare.

Definition createEventElement (ev : event) : eventElement :=
  let type := typeOf ev in
  let isFailed := ev_failed ev || String.eqb type "failed" in
  let isIllegal := ev_illegal ev || String.eqb type "illegal" in
  let header :=
    if String.eqb type "caught" then
      if isFailed
      then withLevel ev "Failed to catch (Level " ")" "Failed to catch"
      else withLevel ev "Caught at Level " "" "Caught"
    else if String.eqb type "fainted" then "Fainted"
    else if String.eqb type "evolved" || String.eqb type "evolution"
    then withLevel ev "Evolved at Level " "" "Evolved"
    else if String.eqb type "badge" then "Badge earned"
    else if JSString.truthy (ev_type ev)
    then capitalize (default "" (ev_type ev))
    else "Event" in
  {| el_classes :=
       ["event";
        if bool_decide (ev_side ev = Some "right") then "right" else "left"]
       ++ (if String.eqb type "" then [] else ["type-" +:+ type])
       ++ (if String.eqb type "fainted" then ["fainted"] else [])
       ++ (if isFailed then ["failed"]
           else if isIllegal then ["illegal"] else []);
     el_header := header;
     el_ribbon :=
       if isFailed && negb (specialTruthy (ev_special ev))
       then Some "Failed Encounter"
       else if isIllegal && negb (specialTruthy (ev_special ev))
       then Some "Illegal Encounter"
       else None;
     el_aria_label := None;
     el_notes := if JSString.truthy (ev_notes ev) then ev_notes ev else None |}.

(** [markSpecialEvent(ev, el, { highlightName })] *)
Definition markSpecialEvent (ev : event) (el : eventElement)
    (highlightName : string) : eventElement :=
  let fallback :=
    JSString.or_else (ev_nickname ev) ("Named after " +:+ highlightName) in
  match ev_special ev with
  | None => el
  | Some sp =>
      let specialLabel :=
        match sp with
        | SpecialString l => Some l
        | SpecialObject l => if JSString.truthy l then l else None
        | SpecialTrue => Some fallback
        end in
      let label := JSString.or_else specialLabel fallback in
      {| el_classes := el_classes el ++ ["special"];
         el_header := el_header el;
         el_ribbon := Some label;
         el_aria_label := Some (label +:+ " — special event");
         el_notes := el_notes el |}
  end.

(** *** Sorting and grouping *)

(** The comparison function handed to [events.sort]. *)
Definition compareEvents (a b : event) : Z :=
  let ea := episodeOf a in
  let eb := episodeOf b in
  if negb (ea =? eb) then ea - eb
  else localeCompare (timestampOf a) (timestampOf b).

(** [Array.prototype.sort] is stable: an element moves in front of
    another only when the comparison is positive the other way round. *)
Fixpoint sortedInsert {A : Type} (cmp : A → A → Z) (x : A) (l : list A)
  : list A :=
  match l with
  | [] => [x]
  | y :: l' =>
      if cmp x y <=? 0 then x :: y :: l' else y :: sortedInsert cmp x l'
  end.

Fixpoint Array_sort {A : Type} (cmp : A → A → Z) (l : list A) : list A :=
  match l with
  | [] => []
  | x :: l' => sortedInsert cmp x (Array_sort cmp l')
  end.

(** [episodesMap], a [Map] in insertion order.  [pushEvent] is one turn
    of the grouping loop: [episodesMap.get(ep).push(ev)], after
    [episodesMap.set(ep, [])] when the key is new. *)
Fixpoint pushEvent (ep : Z) (ev : event) (episodesMap : list (Z * list event))
  : list (Z * list event) :=
  match episodesMap with
  | [] => [(ep, [ev])]
  | (k, evs) :: rest =>
      if k =? ep then (k, evs ++ [ev]) :: rest
      else (k, evs) :: pushEvent ep ev rest
  end.

Definition groupByEpisode (events : list event) : list (Z * list event) :=
  fold_left (λ m ev, pushEvent (episodeOf ev) ev m) events [].

(** [episodesOrder] lists the keys as they were first seen. *)
Definition episodesOrder (episodesMap : list (Z * list event)) : list Z :=
  fst <$> episodesMap.

(** *** The page *)

(** A child of an episode's contents. *)
Inductive node : Type :=
  | EventCard (el : eventElement)
  | RunEndBanner (text : string).

(** One [section.episode-section].  [sec_runKey] is the [runKey] the
    banner's click handler closed over when the section was built. *)
Record section : Type := {
  sec_episode : Z;                  (* data-episode *)
  sec_runKey : string;
  sec_title : string;               (* .episode-title *)
  banner_expanded : bool;           (* aria-expanded of the banner *)
  contents_collapsed : bool;        (* class "collapsed" of the contents *)
  contents_hidden : bool;           (* aria-hidden of the contents *)
  contents_overflow_visible : bool; (* style.overflow: visible / hidden *)
  sec_nodes : list node
}.

(** The state the script reads and writes.  The page is taken to have
    its [#timeline] container; [timeline] lists the container's
    sections.  Scroll position and measured heights are left out. *)
Record Page : Type := {
  localStorage : Storage;
  timeline : list section;
  message : option string;              (* text of #message when shown *)
  episodeSelector : list (Z * string);  (* options of #episode-selector *)
  CURRENT_RUN_ID : option string;
  location_hash : string;
  location_search : string
}.

Definition withStorage (pg : Page) (st : Storage) : Page :=
  {| localStorage := st; timeline := timeline pg; message := message pg;
     episodeSelector := episodeSelector pg;
     CURRENT_RUN_ID := CURRENT_RUN_ID pg;
     location_hash := location_hash pg;
     location_search := location_search pg |}.

Definition withTimeline (pg : Page) (secs : list section) : Page :=
  {| localStorage := localStorage pg; timeline := secs; message := message pg;
     episodeSelector := episodeSelector pg;
     CURRENT_RUN_ID := CURRENT_RUN_ID pg;
     location_hash := location_hash pg;
     location_search := location_search pg |}.

(** [CURRENT_RUN_ID || DEFAULT_RUN_ID] *)
Definition currentRunKey (pg : Page) : string :=
  JSString.or_else (CURRENT_RUN_ID pg) DEFAULT_RUN_ID.

(** *** Episode expand/collapse helpers *)

(** [document.querySelector(`.episode-section[data-episode="${episode}"]`)] *)
Definition querySection (episode : Z) (secs : list section) : option section :=
  List.find (λ sec, sec_episode sec =? episode) secs.

(** The attribute and style writes of [toggleEpisodeSection]. *)
Definition setExpanded (willExpand : bool) (sec : section) : section :=
  {| sec_episode := sec_episode sec;
     sec_runKey := sec_runKey sec;
     sec_title := sec_title sec;
     banner_expanded := willExpand;
     contents_collapsed := negb willExpand;
     contents_hidden := negb willExpand;
     contents_overflow_visible := willExpand;
     sec_nodes := sec_nodes sec |}.

(** The writes land on the element [querySelector] returned: the first
    section carrying the episode number. *)
Fixpoint updateSection (episode : Z) (f : section → section)
    (secs : list section) : list section :=
  match secs with
  | [] => []
  | sec :: rest =>
      if sec_episode sec =? episode then f sec :: rest
      else sec :: updateSection episode f rest
  end.

(** [(typeof expand === "boolean") ? expand : !isExpanded] *)
Definition willExpandFor (expand : option bool) (isExpanded : bool) : bool :=
  match expand with
  | Some b => b
  | None => negb isExpanded
  end.

(** [if (!willExpand) map.add(Number(episode)); else map.delete(Number(episode))] *)
Definition noteCollapsed (willExpand : bool) (episode : Z) (map : gset jsnum)
  : gset jsnum :=
  if willExpand then map ∖ {[Int episode]} else {[Int episode]} ∪ map.

Definition toggleEpisodeSection (pg : Page) (runId : string) (episode : Z)
    (expand : option bool) : Page :=
  match querySection episode (timeline pg) with
  | None => pg
  | Some sec =>
      let isExpanded := banner_expanded sec in
      let willExpand := willExpandFor expand isExpanded in
      let secs := updateSection episode (setExpanded willExpand) (timeline pg) in
      let map := loadCollapsedMap (localStorage pg) runId in
      withStorage (withTimeline pg secs)
        (saveCollapsedMap (localStorage pg) runId
           (noteCollapsed willExpand episode map))
  end.

(** Expand/Collapse all.  [sections] is the static list
    [querySelectorAll] returned; [map] is loaded once, before the loop.
    [setAllStep] is the callback of [sections.forEach], of the
    [collapsed] branch or of the other one. *)
Definition setAllStep (runId : string) (collapsed : bool)
    (acc : Page * gset jsnum) (sec : section) : Page * gset jsnum :=
  let '(pg, map) := acc in
  let ep := sec_episode sec in
  if collapsed
  then (toggleEpisodeSection pg runId ep (Some false), {[Int ep]} ∪ map)
  else (toggleEpisodeSection pg runId ep (Some true), map ∖ {[Int ep]}).

Definition setAllCollapsed (pg : Page) (runId : string) (collapsed : bool)
  : Page :=
  let sections := timeline pg in
  let map := loadCollapsedMap (localStorage pg) runId in
  let '(pg', map') :=
    fold_left (setAllStep runId collapsed) sections (pg, map) in
  withStorage pg' (saveCollapsedMap (localStorage pg') runId map').

(** *** Permalink parsing and handling *)

(** [params.get(k)] *)
Definition params_get (k : string) (params : list (string * string))
  : option string :=
  snd <$> List.find (λ p, String.eqb (fst p) k) params.

(** [params.set(k, v)]: the first entry named [k] takes the value and
    the later ones go; without such an entry one is appended. *)
Fixpoint params_set (k v : string) (params : list (string * string))
  : list (string * string) :=
  match params with
  | [] => [(k, v)]
  | (k', v') :: rest =>
      if String.eqb k' k
      then (k, v) :: List.filter (λ p, negb (String.eqb (fst p) k)) rest
      else (k', v') :: params_set k v rest
  end.

(** [s.indexOf("?")] with the two substrings around it. *)
Fixpoint splitAtQuestionMark (s : string) : option (string * string) :=
  match s with
  | EmptyString => None
  | String c s' =>
      if Ascii.eqb c "?" then Some ("", s')
      else
        match splitAtQuestionMark s' with
        | Some (before, after) => Some (String c before, after)
        | None => None
        end
  end.

(** [hash.replace(/^#/, "")] *)
Definition stripHash (hash : string) : string :=
  match hash with
  | String c s' => if Ascii.eqb c "#" then s' else hash
  | EmptyString => hash
  end.

Definition parseHashAnchorAndParams (pg : Page)
  : option string * list (string * string) :=
  let params := URLSearchParams (location_search pg) in
  let rawHash := stripHash (location_hash pg) in
  if String.eqb rawHash "" then (None, params)
  else
    match splitAtQuestionMark rawHash with
    | None => (Some rawHash, params)
    | Some (anchor, hashQuery) =>
        let hashParams := URLSearchParams hashQuery in
        (Some anchor,
         fold_left (λ ps '(k, v), params_set k v ps) hashParams params)
    end.

(** The decimal value of a string of digits: [Number(m[1])]. *)
Definition digitsValue (digits : list ascii) : Z :=
  fold_left (λ acc c, 10 * acc + (Z.of_N (JSString.code c) - 48)) digits 0.

(** [/^episode-(\d+)$/.exec(anchor)]: the digits after ["episode-"]. *)
Definition matchEpisodeAnchor (anchor : string) : option (list ascii) :=
  if String.prefix "episode-" anchor
  then
    let digits :=
      list_ascii_of_string
        (String.substring 8 (String.length anchor - 8) anchor) in
    if negb (Nat.eqb (List.length digits) 0) && forallb JSString.is_digit digits
    then Some digits
    else None
  else None.

(** [spoiler === "0" ? false : true] *)
Definition shouldExpandFor (spoiler : option string) : bool :=
  negb (bool_decide (spoiler = Some "0")).

(** The scroll that [expandAndScroll] schedules is not part of [Page]. *)
Definition handlePermalinkOnLoad (pg : Page) : Page :=
  let '(anchor, params) := parseHashAnchorAndParams pg in
  let expandAndScroll (episodeNum : Z) (shouldExpand : bool) :=
    toggleEpisodeSection pg (currentRunKey pg) episodeNum (Some shouldExpand) in
  match anchor ≫= matchEpisodeAnchor with
  | Some digits =>
      expandAndScroll (digitsValue digits)
        (shouldExpandFor (params_get "spoiler" params))
  | None =>
      let q := URLSearchParams (location_search pg) in
      let epi := params_get "episode" q in
      let spoilerQ := params_get "spoiler" q in
      if JSString.truthy epi then
        match StringToNumber (default "" epi) with
        | Int ep => expandAndScroll ep (shouldExpandFor spoilerQ)
        | NaN => pg
        end
      else pg
  end.

(** *** Render timeline *)

(** [["run_end","runended","run_ended","end"].includes(evType)] *)
Definition isRunEnd (ev : event) : bool :=
  bool_decide (typeOf ev ∈ ["run_end"; "runended"; "run_ended"; "end"]).

(** [parts.join(" • ")] *)
Fixpoint joinParts (parts : list string) : string :=
  match parts with
  | [] => ""
  | [p] => p
  | p :: rest => p +:+ " • " +:+ joinParts rest
  end.

(** The text of the [div.run-end-banner]. *)
Definition runEndText (ev : event) : string :=
  let parts :=
    (match ev_episode ev with
     | Some e => ["Episode " +:+ pretty e]
     | None => []
     end)
    ++ (if JSString.truthy (ev_date ev) then [default "" (ev_date ev)] else []) in
  let note :=
    if JSString.truthy (ev_notes ev)
    then " — " +:+ default "" (ev_notes ev) else "" in
  "Run Ended"
  +:+ (match parts with [] => "" | _ => " — " +:+ joinParts parts end)
  +:+ note.

(** The body of the loop over [epEvents]: a run-end marker becomes a
    banner and the loop [continue]s; any other event becomes the element
    of [createEventElement], passed through [markSpecialEvent]. *)
Definition renderEvent (ev : event) : node :=
  if isRunEnd ev then RunEndBanner (runEndText ev)
  else EventCard (markSpecialEvent ev (createEventElement ev) "Luc").

(** Lines 581-590: the persisted collapsed map, seeded with the last
    episode when nothing was ever stored under the run's key. *)
Definition resolveCollapsed (st : Storage) (runKey : string)
    (order : list Z) : gset jsnum * Storage :=
  let persisted := loadCollapsedMap st runKey in
  let hasPersisted := bool_decide (getItem st (collapsedKey runKey) ≠ None) in
  if negb hasPersisted && negb (Nat.eqb (List.length order) 0)
  then
    let lastEp := List.last order 0 in
    let persisted' := {[Int lastEp]} ∪ persisted in
    (persisted', saveCollapsedMap st runKey persisted')
  else (persisted, st).

(** [episodesMap.get(ep)[0]?.date] *)
Definition episodeDate (epEvents : list event) : option string :=
  head epEvents ≫= ev_date.

Definition buildSection (runKey : string) (persisted : gset jsnum)
    (entry : Z * list event) : section :=
  let '(ep, epEvents) := entry in
  let isExpanded := negb (bool_decide (Int ep ∈ persisted)) in
  let epDate := episodeDate epEvents in
  {| sec_episode := ep;
     sec_runKey := runKey;
     sec_title :=
       "Episode " +:+ pretty ep
       +:+ (if JSString.truthy epDate then " • " +:+ default "" epDate else "");
     banner_expanded := isExpanded;
     contents_collapsed := negb isExpanded;
     contents_hidden := negb isExpanded;
     contents_overflow_visible := isExpanded;
     sec_nodes := renderEvent <$> epEvents |}.

(** The page once the sections are in place, before the permalink of
    the current URL is resolved. *)
Definition renderSections (pg : Page) (events : list event) : Page :=
  let sorted := Array_sort compareEvents events in
  let episodesMap := groupByEpisode sorted in
  let runKey := currentRunKey pg in
  let '(persisted, st) :=
    resolveCollapsed (localStorage pg) runKey (episodesOrder episodesMap) in
  {| localStorage := st;
     timeline := buildSection runKey persisted <$> episodesMap;
     message := None;
     episodeSelector :=
       (λ entry, (fst entry, JSString.or_else (episodeDate (snd entry)) ""))
         <$> episodesMap;
     CURRENT_RUN_ID := CURRENT_RUN_ID pg;
     location_hash := location_hash pg;
     location_search := location_search pg |}.

Definition renderTimeline (pg : Page) (events : list event) : Page :=
  match events with
  | [] =>
      {| localStorage := localStorage pg;
         timeline := [];
         message := Some "No events found for this run.";
         episodeSelector := [];
         CURRENT_RUN_ID := CURRENT_RUN_ID pg;
         location_hash := location_hash pg;
         location_search := location_search pg |}
  | _ => handlePermalinkOnLoad (renderSections pg events)
  end.

(** *** Load and display run *)

(** [events] is the fetched list after the type filter and the search;
    the step runs from the assignment of [CURRENT_RUN_ID] to the end of
    [renderTimeline], leaving out what handlers might do while the fetch
    is awaited in between. *)
Definition loadAndDisplayRun (pg : Page) (runId : option string)
    (events : list event) : Page :=
  let runId := JSString.or_else runId DEFAULT_RUN_ID in
  renderTimeline
    {| localStorage := localStorage pg;
       timeline := timeline pg;
       message := message pg;
       episodeSelector := episodeSelector pg;
       CURRENT_RUN_ID := Some runId;
       location_hash := location_hash pg;
       location_search := location_search pg |}
    events.

(** *** Handlers wired by the render *)

(** [history.replaceState(null, "", ...)] with a new hash or a new query *)
Definition withLocation (pg : Page) (hash search : string) : Page :=
  {| localStorage := localStorage pg; timeline := timeline pg;
     message := message pg; episodeSelector := episodeSelector pg;
     CURRENT_RUN_ID := CURRENT_RUN_ID pg;
     location_hash := hash; location_search := search |}.

(** [SelectRun] carries the query string of the URL once its [run]
    parameter is set, as the host serialises it. *)
Inductive action : Type :=
  | ClickBanner (episode : Z)     (* click, Enter or Space on a banner *)
  | ExpandAll                     (* #expand-all *)
  | CollapseAll                   (* #collapse-all *)
  | JumpToEpisode (episode : Z)   (* #jump-episode with a selected value *)
  | SelectRun (runId : string) (search : string) (events : list event)
  | Display (runId : option string) (events : list event).

Definition handle (pg : Page) (a : action) : Page :=
  match a with
  | ClickBanner ep =>
      match querySection ep (timeline pg) with
      | Some sec => toggleEpisodeSection pg (sec_runKey sec) ep None
      | None => pg
      end
  | ExpandAll => setAllCollapsed pg (currentRunKey pg) false
  | CollapseAll => setAllCollapsed pg (currentRunKey pg) true
  | JumpToEpisode ep =>
      withLocation
        (toggleEpisodeSection pg (currentRunKey pg) ep (Some true))
        ("#episode-" +:+ pretty ep) (location_search pg)
  | SelectRun runId search events =>
      loadAndDisplayRun (withLocation pg (location_hash pg) search)
        (Some runId) events
  | Display runId events => loadAndDisplayRun pg runId events
  end.

(** *** Init: the initial run *)

Record run : Type := {
  run_id : string;
  run_title : option string
}.

(** [a || b] on possibly absent strings *)
Definition or_opt (a b : option string) : option string :=
  if JSString.truthy a then a else b.

(** [(runParam && runs.find(r => r.id === runParam)?.id)
     || defaultRunId || runs[0]?.id || defaultRunId],
    with the configured default as a parameter. *)
Definition chooseInitialRun (defaultRunId : string)
    (runParam : option string) (runs : list run) : string :=
  let found :=
    if JSString.truthy runParam
    then run_id <$> List.find (λ r, String.eqb (run_id r) (default "" runParam)) runs
    else None in
  JSString.or_else
    (or_opt (or_opt found (Some defaultRunId)) (run_id <$> head runs))
    defaultRunId.

Definition initialRun (runParam : option string) (runs : list run) : string :=
  chooseInitialRun DEFAULT_RUN_ID runParam runs.

(** *** Vocabulary of the statements *)

Definition byEpisode (a b : event) : Prop := episodeOf a ≤ episodeOf b.


Definition inOrder (a b : event) : Prop := compareEvents a b ≤ 0.

(** [m] is the highest episode number among [events]. *)
Definition isHighestEpisode (events : list event) (m : Z) : Prop :=
  (∃ ev, ev ∈ events ∧ episodeOf ev = m)
  ∧ ∀ ev, ev ∈ events → episodeOf ev ≤ m.


(** What grouping an episode-sorted list gives: ascending keys, the
    groups laid end to end are the list, and every group is non-empty
    and holds events of its key only. *)
Definition grouped (l : list event) (G : list (Z * list event)) : Prop :=
  StronglySorted Z.lt (fst <$> G)
  ∧ concat (snd <$> G) = l
  ∧ Forall (λ g, snd g ≠ [] ∧ Forall (λ ev, episodeOf ev = fst g) (snd g)) G.

(** The number of ordinary event cards among the children of a
    section's contents, and the page's map from episode to that count. *)
Definition isEventCard (nd : node) : bool :=
  match nd with
  | EventCard _ => true
  | RunEndBanner _ => false
  end.

Definition cardCount (sec : section) : nat :=
  List.length (List.filter isEventCard (sec_nodes sec)).

Definition episodeCardCounts (pg : Page) : list (Z * nat) :=
  (λ sec, (sec_episode sec, cardCount sec)) <$> timeline pg.

(** The episode is in the collapsed set stored for the run. *)
Definition collapsedIn (st : Storage) (runId : string) (episode : Z) : Prop :=
  Int episode ∈ loadCollapsedMap st runId.




(** The query parameters permalink resolution reads for a hash with or
    without a query of its own. *)
Definition mergedParams (pg : Page) (hashQuery : option string)
  : list (string * string) :=
  match hashQuery with
  | Some q =>
      fold_left (λ ps '(k, v), params_set k v ps) (URLSearchParams q)
        (URLSearchParams (location_search pg))
  | None => URLSearchParams (location_search pg)
  end.


(** What a write to the collapsed map of run [r] leaves alone. *)
Definition storageFrame (r : string) (st st' : Storage) : Prop :=
  writable st' = writable st
  ∧ (∀ k, k ≠ collapsedKey r → getItem st' k = getItem st k)
  ∧ (writable st = false → st' = st).

(** A session: a run is displayed, then handlers run one after the
    other. *)
Definition session (pg : Page) (runId : option string) (events : list event)
    (actions : list action) : Page :=
  fold_left handle actions (loadAndDisplayRun pg runId events).

(** No ["?"] occurs in the string. *)
Definition noQuestionMark (s : string) : Prop :=
  Forall (λ c, c ≠ "?"%char) (list_ascii_of_string s).


End Script.

(** ** A host to run the script on

    Executable stand-ins for the browser functions: JSON restricted to
    arrays of integers and [null], query strings without percent
    escapes, and a comparison of strings that reads runs of digits as
    numbers.  They serve to evaluate the script on concrete pages. *)

Module SimpleHost.

(** **** JSON *)

Definition showInt (z : Z) : string := NilZero.string_of_int (Z.to_int z).

Definition showItem (v : jsval) : string :=
  match v with
  | JNum (Int z) => showInt z
  | JBool true => "true"
  | JBool false => "false"
  | _ => "null"
  end.

Fixpoint showItems (l : list jsval) : string :=
  match l with
  | [] => ""
  | [v] => showItem v
  | v :: rest => showItem v +:+ "," +:+ showItems rest
  end.

Definition stringify (v : jsval) : string :=
  match v with
  | JArr l => "[" +:+ showItems l +:+ "]"
  | _ => showItem v
  end.

Definition readItem (chars : list ascii) : option jsval :=
  let s := string_of_list_ascii chars in
  if String.eqb s "null" then Some JNull
  else if String.eqb s "true" then Some (JBool true)
  else if String.eqb s "false" then Some (JBool false)
  else (λ d, JNum (Int (Z.of_int d))) <$> NilZero.int_of_string s.

(** [cur] holds the characters of the item being read and [acc] the
    items read so far, both latest first. *)
Fixpoint readItems (cur : list ascii) (acc : list jsval) (l : list ascii)
  : option jsval :=
  match l with
  | [] => None
  | c :: l' =>
      if Ascii.eqb c "]" then
        match l', cur, acc with
        | [], [], [] => Some (JArr [])
        | [], _, _ => (λ v, JArr (rev (v :: acc))) <$> readItem (rev cur)
        | _, _, _ => None
        end
      else if Ascii.eqb c "," then
        match readItem (rev cur) with
        | Some v => readItems [] (v :: acc) l'
        | None => None
        end
      else readItems (c :: cur) acc l'
  end.

Definition parse (s : string) : option jsval :=
  match s with
  | String c rest =>
      if Ascii.eqb c "[" then readItems [] [] (list_ascii_of_string rest)
      else readItem (list_ascii_of_string s)
  | EmptyString => None
  end.

(** **** Numbers from strings *)

Definition stringToNumber (s : string) : jsnum :=
  if String.eqb s "" then Int 0
  else
    match NilZero.int_of_string s with
    | Some d => Int (Z.of_int d)
    | None => NaN
    end.

(** **** Numeric-aware comparison *)

(** A string becomes a list of keys, two per token: a run of digits is
    [1; value], a character below ["0"] is [0; code] and one above
    ["9"] is [2; code]. *)
Definition flushNumber (num : option Z) : list Z :=
  match num with
  | Some n => [1; n]
  | None => []
  end.

Fixpoint collationKeys (num : option Z) (l : list ascii) : list Z :=
  match l with
  | [] => flushNumber num
  | c :: l' =>
      let k := Z.of_N (JSString.code c) in
      if JSString.is_digit c
      then collationKeys (Some (10 * default 0 num + (k - 48))) l'
      else flushNumber num
           ++ (if k <? 48 then 0 else 2) :: k :: collationKeys None l'
  end.

Fixpoint lexCompare (a b : list Z) : Z :=
  match a, b with
  | [], [] => 0
  | [], _ :: _ => -1
  | _ :: _, [] => 1
  | x :: a', y :: b' =>
      if x <? y then -1
      else if y <? x then 1
      else lexCompare a' b'
  end.

Definition compareNumeric (a b : string) : Z :=
  lexCompare (collationKeys None (list_ascii_of_string a))
             (collationKeys None (list_ascii_of_string b)).

(** **** Query strings *)

Fixpoint splitOn (sep : ascii) (cur : list ascii) (l : list ascii)
  : list (list ascii) :=
  match l with
  | [] => [rev cur]
  | c :: l' =>
      if Ascii.eqb c sep then rev cur :: splitOn sep [] l'
      else splitOn sep (c :: cur) l'
  end.

Fixpoint splitPair (name : list ascii) (l : list ascii) : string * string :=
  match l with
  | [] => (string_of_list_ascii (rev name), "")
  | c :: l' =>
      if Ascii.eqb c "=" then
        (string_of_list_ascii (rev name), string_of_list_ascii l')
      else splitPair (c :: name) l'
  end.

Definition searchParams (query : string) : list (string * string) :=
  let body :=
    match query with
    | String c rest => if Ascii.eqb c "?" then rest else query
    | EmptyString => query
    end in
  splitPair []
    <$> List.filter (λ piece, negb (Nat.eqb (List.length piece) 0))
          (splitOn "&" [] (list_ascii_of_string body)).

(** An array of integers, and the characters their texts are made of. *)
Definition ints (l : list Z) : list jsval := (λ z, JNum (Int z)) <$> l.

Definition isNumberChar (c : ascii) : Prop :=
  JSString.is_digit c = true ∨ c = "-"%char.

Definition host : Host :=
  {| JSON_parse := parse;
     JSON_stringify := stringify;
     StringToNumber := stringToNumber;
     ObjectToNumber := λ _, NaN;
     localeCompare := compareNumeric;
     URLSearchParams := searchParams |}.

End SimpleHost.

(** ** Sample data *)

Module Sample.

#[local] Existing Instance SimpleHost.host.

Definition mkEvent (episode : option Z) (type timestamp : string) : event :=
  {| ev_id := None; ev_episode := episode; ev_type := Some type;
     ev_timestamp := Some timestamp; ev_date := None; ev_notes := None;
     ev_side := None; ev_level := None; ev_nickname := None;
     ev_failed := false; ev_illegal := false; ev_special := None |}.

Definition caught2 : event := mkEvent (Some 2) "caught" "10:02".
Definition fainted2 : event := mkEvent (Some 2) "Fainted" "2:30".
Definition badge1 : event := mkEvent (Some 1) "badge" "1:15:00".
Definition caught0 : event := mkEvent None "caught" "0:10".
Definition end2 : event := mkEvent (Some 2) "RUN_ENDED" "59:00".

Definition events : list event := [caught2; end2; badge1; fainted2; caught0].

Definition emptyStorage : Storage := {| items := ∅; writable := true |}.

Definition pageWith (st : Storage) (hash search : string) : Page :=
  {| localStorage := st; timeline := []; message := None;
     episodeSelector := []; CURRENT_RUN_ID := Some "run-01";
     location_hash := hash; location_search := search |}.

Definition blank : Page := pageWith emptyStorage "" "".

(** A page whose storage holds the empty list for the run. *)
Definition seeded : Page :=
  pageWith {| items := {[ collapsedKey "run-01" := "[]" ]}; writable := true |}
    "" "".

(** A run of five episodes and the page right before the permalink of
    [hash] is resolved on it. *)
Definition fiveEpisodes : list event :=
  [mkEvent (Some 5) "caught" "12:40"; mkEvent (Some 3) "badge" "1:02:03";
   mkEvent (Some 5) "end" "58:10"; mkEvent (Some 1) "caught" "0:45";
   mkEvent (Some 4) "evolved" "7:15"; mkEvent (Some 2) "fainted" "30:00"].

Definition rendered (hash : string) : Page :=
  renderSections (pageWith emptyStorage hash "") fiveEpisodes.


(** The displayed state of the sections: episode and [aria-expanded]. *)
Definition shown (pg : Page) : list (Z * bool) :=
  (λ sec, (sec_episode sec, banner_expanded sec)) <$> timeline pg.

Definition stored (pg : Page) (runId : string) : option string :=
  getItem (localStorage pg) (collapsedKey runId).

End Sample.

(** ** Further vocabulary *)

(** The attributes of a section agree with one another: the contents
    carry the class [collapsed], [aria-hidden="true"] and a hidden
    overflow exactly when the banner's [aria-expanded] is ["false"]. *)
Definition coherent (sec : section) : Prop :=
  contents_collapsed sec = negb (banner_expanded sec)
  ∧ contents_hidden sec = negb (banner_expanded sec)
  ∧ contents_overflow_visible sec = banner_expanded sec.


(** What a step changes of a section: nothing, or the attributes
    [toggleEpisodeSection] writes, on a section of episode [ep]. *)
Definition retouched (ep : Z) (b : bool) (sec sec' : section) : Prop :=
  sec' = sec ∨ (sec_episode sec = ep ∧ sec' = setExpanded b sec).

(** ** The permalink button

    The click handler of a section's permalink button (lines 619-625)
    copies a link to the clipboard; [base] is
    [location.origin + location.pathname + location.search]. *)
Definition permalinkUrl (base : string) (ep : Z) (shiftKey : bool) : string :=
  let anchor := "episode-" +:+ pretty ep in
  let expandedUrl := base +:+ "#" +:+ anchor in
  let safeUrl := base +:+ "#" +:+ anchor +:+ "?spoiler=0" in
  if shiftKey then safeUrl else expandedUrl.

(** [location.hash] of a page opened at [url]: the first ["#"] and what
    follows it, or nothing when nothing follows. *)
Fixpoint urlFragment (url : string) : string :=
  match url with
  | EmptyString => ""
  | String c rest =>
      if Ascii.eqb c "#"
      then (if String.eqb rest "" then "" else url)
      else urlFragment rest
  end.

(** No ["#"] occurs in the string. *)
Definition noHash (s : string) : Prop :=
  Forall (λ c, c ≠ "#"%char) (list_ascii_of_string s).

(** ** Class tokens

    [classList.add] throws for a token that holds ASCII whitespace
    (TAB, LF, FF, CR, SPACE), so [createEventElement] returns its
    element only for an event whose lower-cased type holds none. *)
Definition is_token_space (c : ascii) : bool :=
  bool_decide (JSString.code c ∈ [9; 10; 12; 13; 32]%N).

Definition classToken (s : string) : Prop :=
  Forall (λ c, is_token_space c = false) (list_ascii_of_string s).

(** The flags [isFailed] and [isIllegal] of [createEventElement]. *)
Definition isFailed (ev : event) : bool :=
  ev_failed ev || String.eqb (typeOf ev) "failed".

Definition isIllegal (ev : event) : bool :=
  ev_illegal ev || String.eqb (typeOf ev) "illegal".

(** The label an event's [special] field spells out, if any. *)
Definition givenLabel (sp : special) : string :=
  match sp with
  | SpecialString l => l
  | SpecialObject (Some l) => l
  | SpecialObject None | SpecialTrue => ""
  end.

(** ** Further string primitives *)

Module JSText.

(** [s.startsWith(q)] *)
Fixpoint startsWith (s q : string) {struct q} : bool :=
  match q with
  | EmptyString => true
  | String a q' =>
      match s with
      | String b s' => Ascii.eqb a b && startsWith s' q'
      | EmptyString => false
      end
  end.

(** [s.includes(q)] *)
Fixpoint includes (s q : string) : bool :=
  startsWith s q
  || match s with
     | String _ s' => includes s' q
     | EmptyString => false
     end.

Definition upper_char (c : ascii) : ascii :=
  if JSString.is_lower c then ascii_of_N (JSString.code c - 32) else c.

(** [s.toUpperCase()], on ASCII *)
Definition toUpperCase (s : string) : string :=
  string_of_list_ascii (List.map upper_char (list_ascii_of_string s)).

(** [s.slice(0, n)] *)
Definition slice0 (n : nat) (s : string) : string := String.substring 0 n s.

End JSText.

(** ** Events as the data file gives them

    An entry of [events.json]: the fields of [event] and the further
    ones that the search and the images of a card read. *)
Record entry : Type := {
  en_event :> event;
  en_species : option string;          (* ev.species *)
  en_pokemon_species : option string;  (* ev.pokemon?.species *)
  en_from : option string;             (* ev.from *)
  en_pokemon_from : option string;     (* ev.pokemon?.from *)
  en_pokemon_before : option string;   (* ev.pokemon?.before *)
  en_to : option string;               (* ev.to *)
  en_pokemon_to : option string;       (* ev.pokemon?.to *)
  en_pokemon_after : option string;    (* ev.pokemon?.after *)
  en_badge : option string;            (* ev.badge *)
  en_badgeName : option string;        (* ev.badgeName *)
  en_name : option string;             (* ev.name *)
  en_location : option string;         (* ev.location *)
  en_obtained : option string;         (* ev.obtained *)
  en_obtainedVia : option string       (* ev.obtainedVia *)
}.

(** ** The filter and the search of [loadAndDisplayRun] *)

(** [(x || "").toLowerCase()] *)
Definition lowered (x : option string) : string :=
  JSString.toLowerCase (JSString.or_else x "").

(** The callback of [events.filter] for the search text [q]. *)
Definition matchesSearch (q : string) (e : entry) : bool :=
  let species := lowered (en_pokemon_species e) in
  let nick := lowered (ev_nickname e) in
  let notes := lowered (ev_notes e) in
  let type := lowered (ev_type e) in
  let location :=
    lowered (or_opt (or_opt (en_location e) (en_obtained e))
               (en_obtainedVia e)) in
  let badge := lowered (en_badge e) in
  JSText.includes species q || JSText.includes nick q
  || JSText.includes notes q || JSText.includes type q
  || JSText.includes location q || JSText.includes badge q.

(** Lines 830-845: the events [loadAndDisplayRun] hands to
    [renderTimeline], from the fetched events, the value of
    [#filter-type] and the value of [#search] ([None] without the
    element). *)
Definition selectEvents (filterValue searchValue : option string)
    (allEvents : list entry) : list entry :=
  let filterType := JSString.or_else filterValue "all" in
  let q := JSString.toLowerCase (JSString.trim (JSString.or_else searchValue "")) in
  let events := allEvents in
  let events :=
    if JSString.truthy (Some filterType) && negb (String.eqb filterType "all")
    then List.filter
           (λ e : entry, String.eqb (lowered (ev_type e))
                   (JSString.toLowerCase filterType))
           events
    else events in
  if JSString.truthy (Some q)
  then List.filter (matchesSearch q) events
  else events.

(** [loadAndDisplayRun] from the fetched events on. *)
Definition displayFetched {host : Host} (pg : Page) (runId : option string)
    (filterValue searchValue : option string) (allEvents : list entry) : Page :=
  loadAndDisplayRun pg runId
    (en_event <$> selectEvents filterValue searchValue allEvents).

(** The search text as the script compares it. *)
Definition searchText (searchValue : option string) : string :=
  JSString.toLowerCase (JSString.trim (JSString.or_else searchValue "")).

(** The event passes the filter and the search. *)
Definition selected (filterValue searchValue : option string) (e : entry)
  : bool :=
  let filterType := JSString.or_else filterValue "all" in
  (String.eqb filterType "all"
   || String.eqb (typeOf e) (JSString.toLowerCase filterType))
  && (String.eqb (searchText searchValue) ""
      || matchesSearch (searchText searchValue) e).

(** ** Images and their placeholder *)

(** An [img] element.  [img_onerror] is the handler
    [attachPlaceholderOnErrorOrNull] installs, given by the label it
    closes over. *)
Record img : Type := {
  img_class : string;
  img_alt : string;
  img_src : option string;
  img_onerror : option (option string)
}.

Section Images.

(** [encodeURIComponent], a function of the host. *)
Variable encodeURIComponent : string → string.

(** The template of [setSvgPlaceholder]. *)
Definition placeholderSvg (short : string) : string :=
  "<svg xmlns='http://www.w3.org/2000/svg' width='120' height='120' viewBox='0 0 120 120'><rect width='100%' height='100%' fill='#f3f4ff'/><text x='50%' y='50%' font-size='28' text-anchor='middle' fill='#6b6b7a' dy='.35em' font-family='Arial,Helvetica,sans-serif'>"
  +:+ short +:+ "</text></svg>".

(** [(label || "").slice(0, 3).toUpperCase()] *)
Definition shortLabel (label : option string) : string :=
  JSText.toUpperCase (JSText.slice0 3 (JSString.or_else label "")).

Definition setSvgPlaceholder (imgEl : img) (label : option string) : img :=
  let short := shortLabel label in
  let svg := placeholderSvg short in
  {| img_class := img_class imgEl;
     img_alt := img_alt imgEl;
     img_src := Some ("data:image/svg+xml;utf8," +:+ encodeURIComponent svg);
     img_onerror := img_onerror imgEl |}.










(** ** Run details *)











End Images.

(** ** The runs list *)

(** The index file as far as [loadRunsList] looks at it: [idx_runs] is
    [None] unless [idx.runs] is an array. *)
Record runIndex : Type := {
  idx_runs : option (list run)
}.

(** [idx] is what [fetchJson] answered: [None] for [null]. *)
Definition loadRunsList (idx : option runIndex) : list run :=
  match idx ≫= idx_runs with
  | Some runs =>
      if Nat.eqb (List.length runs) 0
      then [{| run_id := DEFAULT_RUN_ID; run_title := Some "Run 1" |}]
      else runs
  | None => [{| run_id := DEFAULT_RUN_ID; run_title := Some "Run 1" |}]
  end.

(** The options of [#run-selector]: value and text. *)
Definition populateRunSelector (runs : list run) : list (string * string) :=
  (λ r, (run_id r, JSString.or_else (run_title r) (run_id r))) <$> runs.

(** ** The rules panel *)

(** [#rules-panel] and [#rules-toggle]: whether the panel is hidden,
    and the [aria-expanded] attribute of the toggle. *)
Record RulesPanel : Type := {
  panel_hidden : bool;
  toggle_aria_expanded : string
}.

Definition openPanel (p : RulesPanel) : RulesPanel :=
  {| panel_hidden := false; toggle_aria_expanded := "true" |}.

Definition closePanel (p : RulesPanel) : RulesPanel :=
  {| panel_hidden := true; toggle_aria_expanded := "false" |}.

(** What the listeners of [initRulesToggle] get to see. *)
Inductive rulesEvent : Type :=
  | ClickToggle        (* a click inside #rules-toggle *)
  | ClickClose         (* a click on #rules-close *)
  | ClickInPanel       (* a click inside the panel, not on #rules-close *)
  | ClickElsewhere     (* a click outside the panel and the toggle *)
  | KeyEscape
  | KeyOther.

#[global] Instance rulesEvent_eq_dec : EqDecision rulesEvent.
Proof. solve_decision. Defined.

(** The listeners that run for an event, in order: the one of the
    element, then the one of the document. *)
Definition rulesStep (p : RulesPanel) (e : rulesEvent) : RulesPanel :=
  let onDocumentClick (inPanel inToggle : bool) (p : RulesPanel) :=
    if negb (panel_hidden p) && negb inPanel && negb inToggle
    then closePanel p else p in
  match e with
  | ClickToggle =>
      onDocumentClick false true
        (if panel_hidden p then openPanel p else closePanel p)
  | ClickClose => onDocumentClick true false (closePanel p)
  | ClickInPanel => onDocumentClick true false p
  | ClickElsewhere => onDocumentClick false false p
  | KeyEscape => closePanel p
  | KeyOther => p
  end.

(** The toggle tells what the panel does. *)
Definition inSync (p : RulesPanel) : Prop :=
  toggle_aria_expanded p = if panel_hidden p then "false" else "true".

(** ** Further sample data *)

Module Cases.

#[local] Existing Instance SimpleHost.host.

(** The five-episode run, its sections built on a page opened at the
    given hash and query string. *)
Definition opened (hash search : string) : Page :=
  renderSections (Sample.pageWith Sample.emptyStorage hash search)
    Sample.fiveEpisodes.

(** The page a link is copied from, and the address it has. *)
Definition address : string := "https://example.org/timeline/?run=run-01".

(** A failed, illegal encounter marked special without a label. *)
Definition luckyCatch : event :=
  {| ev_id := Some "e7"; ev_episode := Some 4; ev_type := Some "Caught";
     ev_timestamp := Some "12:01"; ev_date := None; ev_notes := None;
     ev_side := Some "right"; ev_level := Some 12; ev_nickname := Some "Pip";
     ev_failed := true; ev_illegal := true;
     ev_special := Some (SpecialString "") |}.

(** An event of a type the script has no header for. *)
Definition trade : event :=
  {| ev_id := None; ev_episode := Some 2; ev_type := Some "trade";
     ev_timestamp := None; ev_date := None; ev_notes := None;
     ev_side := None; ev_level := None; ev_nickname := None;
     ev_failed := false; ev_illegal := true; ev_special := None |}.

(** Entries of a data file: an event with its species and location. *)
Definition entryOf (ev : event) (species location : option string) : entry :=
  {| en_event := ev; en_species := None; en_pokemon_species := species;
     en_from := None; en_pokemon_from := None; en_pokemon_before := None;
     en_to := None; en_pokemon_to := None; en_pokemon_after := None;
     en_badge := None; en_badgeName := None; en_name := None;
     en_location := location; en_obtained := None; en_obtainedVia := None |}.

Definition catalogue : list entry :=
  [entryOf Sample.caught2 (Some "Pidgey") (Some "Route 1");
   entryOf Sample.badge1 None (Some "Pewter Gym");
   entryOf Sample.fainted2 (Some "Rattata") None;
   entryOf Sample.end2 None None;
   entryOf Sample.caught0 (Some "Pikachu") (Some "Viridian Forest")].







(** A data file whose events are in order already; the second and the
    third compare as equal. *)
Definition inOrder : list event :=
  [Sample.caught0; Sample.badge1; Sample.mkEvent (Some 1) "caught" "1:15:00";
   Sample.fainted2; Sample.caught2; Sample.end2].

End Cases.

(** * Properties *)

(** ** Image file names *)

Lemma keep_filename_chars_Forall (l : list ascii) :
  Forall (λ c, JSString.is_filename_char c = true) (JSString.keep_filename_chars l).
Proof.
  unfold JSString.keep_filename_chars.
  induction l as [|c l IH]; simpl; [constructor|].
  destruct (JSString.is_filename_char c) eqn:Hc; [constructor|]; assumption.
Qed.

Lemma normalizeName_alphabet (s : string) :
  Forall (λ c, JSString.is_filename_char c = true)
    (list_ascii_of_string (normalizeName s)).
Proof.
  unfold normalizeName.
  rewrite list_ascii_of_string_of_list_ascii.
  apply keep_filename_chars_Forall.
Qed.

Lemma truthy_Some (s : string) :
  JSString.truthy (Some s) = negb (String.eqb s "").
Proof. reflexivity. Qed.










(** ** The collapsed map in storage *)

Section StorageFacts.

Context {host : Host}.

Lemma loadCollapsedMap_absent (st : Storage) (runId : string) :
  getItem st (collapsedKey runId) = None → loadCollapsedMap st runId = ∅.
Proof.
  intros H. unfold loadCollapsedMap, loadCollapsedMap_try. rewrite H.
  reflexivity.
Qed.

(** C7.  [loadCollapsedMap] always returns a set: the empty one when
    nothing is stored under the run's key, when the stored text is
    empty, when [JSON.parse] throws (the [catch] branch) and when the
    parsed value is not an array; the set of the [Number]s of the
    elements when it is an array. *)
Theorem loadCollapsedMap_tolerant (st : Storage) (runId : string) :
  loadCollapsedMap st runId =
  match getItem st (COLLAPSED_KEY_PREFIX +:+ runId) with
  | None => ∅
  | Some raw =>
      match JSON_parse raw with
      | None => ∅
      | Some (JArr arr) =>
          if String.eqb raw "" then ∅ else list_to_set (Number <$> arr)
      | Some _ => ∅
      end
  end.
Proof.
  unfold loadCollapsedMap, loadCollapsedMap_try, collapsedKey.
  destruct (getItem st (COLLAPSED_KEY_PREFIX +:+ runId)) as [raw|];
    [|reflexivity].
  rewrite truthy_Some, negb_involutive. simpl default.
  destruct (String.eqb raw "") eqn:Hraw.
  - simpl. destruct (JSON_parse raw) as [[]|]; reflexivity.
  - destruct (JSON_parse raw) as [[]|]; reflexivity.
Qed.

(** What the proofs below use of [JSON]: an array of integers survives
    [JSON.stringify] followed by [JSON.parse], and the text of an array
    is never empty. *)
Hypothesis JSON_roundtrip :
  ∀ l : list Z,
    JSON_parse (JSON_stringify (JArr ((λ z, JNum (Int z)) <$> l)))
    = Some (JArr ((λ z, JNum (Int z)) <$> l)).
Hypothesis JSON_stringify_array :
  ∀ l : list jsval, JSON_stringify (JArr l) ≠ "".

Lemma integers_of_list (l : list jsnum) :
  NaN ∉ l → ∃ zs : list Z, l = Int <$> zs.
Proof.
  induction l as [|n l IH]; intros Hl.
  - exists []. reflexivity.
  - destruct IH as [zs ->]; [set_solver|].
    destruct n as [z|]; [|set_solver].
    exists (z :: zs). reflexivity.
Qed.

Lemma getItem_setItem (st st' : Storage) (key value : string) :
  setItem st key value = inr st' → getItem st' key = Some value.
Proof.
  unfold setItem, getItem. destruct (writable st); [|discriminate].
  intros [= <-]. simpl. apply lookup_insert_eq.
Qed.

Lemma saveCollapsedMap_writable (st : Storage) (runId : string)
    (s : gset jsnum) :
  writable st = true →
  saveCollapsedMap st runId s =
  {| items := <[collapsedKey runId := JSON_stringify (JArr (JNum <$> elements s))]>
                (items st);
     writable := true |}.
Proof.
  intros Hw. unfold saveCollapsedMap, setItem. rewrite Hw. reflexivity.
Qed.

Lemma saveCollapsedMap_readonly (st : Storage) (runId : string)
    (s : gset jsnum) :
  writable st = false → saveCollapsedMap st runId s = st.
Proof.
  intros Hw. unfold saveCollapsedMap, setItem. rewrite Hw. reflexivity.
Qed.

Lemma load_after_save (st : Storage) (runId : string) (s : gset jsnum) :
  writable st = true → NaN ∉ s →
  loadCollapsedMap (saveCollapsedMap st runId s) runId = s.
Proof.
  intros Hw Hs.
  rewrite saveCollapsedMap_writable by assumption.
  unfold loadCollapsedMap, loadCollapsedMap_try, getItem. simpl items.
  rewrite lookup_insert_eq, truthy_Some. simpl default.
  destruct (String.eqb_spec (JSON_stringify (JArr (JNum <$> elements s))) "")
    as [He|_]; [by apply JSON_stringify_array in He|].
  simpl negb.
  destruct (integers_of_list (elements s)) as [zs Hzs].
  { intros Hin. apply Hs. by apply elem_of_elements. }
  rewrite Hzs, <- list_fmap_compose.
  change (JNum ∘ Int) with (λ z, JNum (Int z)).
  rewrite JSON_roundtrip. simpl.
  rewrite <- list_fmap_compose.
  change (Number ∘ (λ z, JNum (Int z))) with Int.
  rewrite <- Hzs. apply list_to_set_elements_L.
Qed.

(** C9.  When the write succeeds, loading what [saveCollapsedMap] saved
    gives back the set of episode numbers that was saved. *)
Theorem save_then_load (st : Storage) (runId : string) (s : gset jsnum) :
  writable st = true →
  (∀ n, n ∈ s → ∃ episode : Z, n = Int episode) →
  loadCollapsedMap (saveCollapsedMap st runId s) runId = s.
Proof.
  intros Hw Hs. apply load_after_save; [assumption|].
  intros Hn. destruct (Hs _ Hn) as [z Hz]. discriminate.
Qed.

End StorageFacts.

(** ** Sorting and grouping *)

Section SortFacts.

Context {host : Host}.

Lemma sortedInsert_Permutation {A : Type} (cmp : A → A → Z) (x : A)
    (l : list A) :
  Permutation (sortedInsert cmp x l) (x :: l).
Proof.
  induction l as [|y l IH]; simpl; [reflexivity|].
  destruct (cmp x y <=? 0); [reflexivity|].
  rewrite IH. apply perm_swap.
Qed.

Lemma Array_sort_Permutation {A : Type} (cmp : A → A → Z) (l : list A) :
  Permutation (Array_sort cmp l) l.
Proof.
  induction l as [|x l IH]; simpl; [reflexivity|].
  rewrite sortedInsert_Permutation. by constructor.
Qed.

(** Inserting keeps a list sorted for every transitive relation the
    comparison decides. *)
Lemma sortedInsert_sorted {A : Type} (cmp : A → A → Z) (R : relation A) :
  Transitive R →
  (∀ a b, cmp a b ≤ 0 → R a b) →
  (∀ a b, 0 < cmp a b → R b a) →
  ∀ x l, StronglySorted R l → StronglySorted R (sortedInsert cmp x l).
Proof.
  intros Htrans Hle Hgt x l. induction l as [|y l IH]; intros Hl; simpl.
  - repeat constructor.
  - apply StronglySorted_cons in Hl as [Hy Hl].
    destruct (Z.leb_spec (cmp x y) 0) as [Hc|Hc].
    + apply StronglySorted_cons. split; [|by apply StronglySorted_cons].
      constructor; [by apply Hle|].
      eapply Forall_impl; [exact Hy|]. intros z Hz.
      by transitivity y; [apply Hle|].
    + apply StronglySorted_cons. split; [|by apply IH].
      rewrite (sortedInsert_Permutation cmp x l).
      constructor; [by apply Hgt|assumption].
Qed.

Lemma Array_sort_sorted {A : Type} (cmp : A → A → Z) (R : relation A) :
  Transitive R →
  (∀ a b, cmp a b ≤ 0 → R a b) →
  (∀ a b, 0 < cmp a b → R b a) →
  ∀ l, StronglySorted R (Array_sort cmp l).
Proof.
  intros Htrans Hle Hgt l. induction l as [|x l IH]; simpl.
  - constructor.
  - by apply sortedInsert_sorted.
Qed.

Lemma compareEvents_le (a b : event) :
  compareEvents a b ≤ 0 ↔
  episodeOf a < episodeOf b
  ∨ (episodeOf a = episodeOf b
     ∧ localeCompare (timestampOf a) (timestampOf b) ≤ 0).
Proof.
  unfold compareEvents.
  destruct (Z.eqb_spec (episodeOf a) (episodeOf b)) as [He|He]; simpl; lia.
Qed.

Lemma compareEvents_gt (a b : event) :
  0 < compareEvents a b ↔
  episodeOf b < episodeOf a
  ∨ (episodeOf a = episodeOf b
     ∧ 0 < localeCompare (timestampOf a) (timestampOf b)).
Proof.
  unfold compareEvents.
  destruct (Z.eqb_spec (episodeOf a) (episodeOf b)) as [He|He]; simpl; lia.
Qed.

#[local] Instance byEpisode_trans : Transitive byEpisode.
Proof. unfold byEpisode. intros a b c. lia. Qed.

(** The episodes of the sorted list ascend, whatever [localeCompare]
    answers. *)
Lemma Array_sort_byEpisode (events : list event) :
  StronglySorted byEpisode (Array_sort compareEvents events).
Proof.
  apply Array_sort_sorted; [apply _| |]; unfold byEpisode; intros a b.
  - rewrite compareEvents_le. lia.
  - rewrite compareEvents_gt. lia.
Qed.

(** *** Grouping *)

Lemma groupByEpisode_snoc (l : list event) (ev : event) :
  groupByEpisode (l ++ [ev]) = pushEvent (episodeOf ev) ev (groupByEpisode l).
Proof. unfold groupByEpisode. by rewrite fold_left_app. Qed.

(** Onto a map whose keys ascend and do not exceed [e], an event of
    episode [e] opens a new last entry or joins the last one. *)
Lemma pushEvent_ascending (e : Z) (ev : event) (G : list (Z * list event)) :
  StronglySorted Z.lt (fst <$> G) →
  Forall (λ k, k ≤ e) (fst <$> G) →
  (Forall (λ k, k < e) (fst <$> G) ∧ pushEvent e ev G = G ++ [(e, [ev])])
  ∨ (∃ G' evs, G = G' ++ [(e, evs)]
              ∧ pushEvent e ev G = G' ++ [(e, evs ++ [ev])]).
Proof.
  induction G as [|[k evs] G IH]; intros Hsorted Hle; simpl.
  - left. split; [constructor|reflexivity].
  - simpl in Hsorted, Hle.
    apply StronglySorted_cons in Hsorted as [Hk Hsorted].
    apply Forall_cons in Hle as [Hke Hle].
    destruct (Z.eqb_spec k e) as [->|Hne].
    + right. exists [], evs. destruct G as [|[k' evs'] G]; [done|].
      simpl in Hk, Hle.
      apply Forall_cons in Hk as [Hk _]. apply Forall_cons in Hle as [Hle _].
      lia.
    + destruct (IH Hsorted Hle) as [[Hlt ->]|(G' & evs' & -> & ->)].
      * left. split; [|reflexivity]. constructor; [lia|assumption].
      * right. by exists ((k, evs) :: G'), evs'.
Qed.

Lemma grouped_keys (l : list event) (G : list (Z * list event)) (k : Z) :
  grouped l G → k ∈ fst <$> G → ∃ ev, ev ∈ l ∧ episodeOf ev = k.
Proof.
  intros (_ & <- & HG) Hk.
  apply list_elem_of_fmap in Hk as ([k' evs] & -> & Hin).
  rewrite Forall_forall in HG. destruct (HG _ Hin) as [Hne Hall].
  simpl in *. destruct evs as [|ev evs]; [done|].
  exists ev. split.
  - apply list_elem_of_In, in_concat. exists (ev :: evs).
    split; [|by left].
    apply list_elem_of_In, list_elem_of_fmap. by exists (k', ev :: evs).
  - by apply Forall_cons in Hall as [? _].
Qed.

Lemma groupByEpisode_grouped (l : list event) :
  StronglySorted byEpisode l → grouped l (groupByEpisode l).
Proof.
  induction l as [|ev l IH] using rev_ind; intros Hl.
  - repeat split; constructor.
  - apply StronglySorted_app in Hl as (Hlast & Hl & _).
    specialize (IH Hl). rewrite groupByEpisode_snoc.
    assert (Forall (λ k, k ≤ episodeOf ev) (fst <$> groupByEpisode l)) as Hle.
    { apply Forall_forall. intros k Hk.
      destruct (grouped_keys _ _ _ IH Hk) as (ev' & Hin & Hev').
      rewrite <- Hev'.
      apply (Hlast ev' ev); [assumption|by apply list_elem_of_singleton]. }
    destruct IH as (Hkeys & Hcat & Hall).
    destruct (pushEvent_ascending (episodeOf ev) ev _ Hkeys Hle)
      as [[Hlt ->]|(G' & evs & HG & ->)].
    + repeat split.
      * rewrite fmap_app. apply StronglySorted_app_2; [|assumption|].
        -- intros k1 k2 Hk1 Hk2. rewrite Forall_forall in Hlt.
           apply list_elem_of_singleton in Hk2 as ->. by apply Hlt.
        -- repeat constructor.
      * by rewrite fmap_app, concat_app, Hcat.
      * apply Forall_app. split; [assumption|].
        repeat constructor; done.
    + rewrite HG in Hkeys, Hcat, Hall.
      rewrite fmap_app in Hkeys. rewrite fmap_app, concat_app in Hcat.
      simpl in Hcat. rewrite app_nil_r in Hcat.
      apply Forall_app in Hall as [Hall Hlastg].
      apply Forall_cons in Hlastg as [[_ Hevs] _]. simpl in Hevs.
      repeat split.
      * by rewrite fmap_app.
      * rewrite fmap_app, concat_app. simpl.
        by rewrite app_nil_r, app_assoc, Hcat.
      * apply Forall_app. split; [assumption|].
        repeat constructor; simpl.
        -- by destruct evs.
        -- apply Forall_app. split; [assumption|]. by repeat constructor.
Qed.

End SortFacts.

(** ** The sections of a rendered timeline *)

Section RenderFacts.

Context {host : Host}.





Lemma timeline_renderSections (pg : Page) (events : list event) :
  ∃ persisted,
    timeline (renderSections pg events) =
    buildSection (currentRunKey pg) persisted
      <$> groupByEpisode (Array_sort compareEvents events).
Proof.
  unfold renderSections.
  destruct (resolveCollapsed _ _ _) as [persisted st].
  by exists persisted.
Qed.


Lemma renderTimeline_grouped (events : list event) :
  grouped (Array_sort compareEvents events)
    (groupByEpisode (Array_sort compareEvents events)).
Proof. apply groupByEpisode_grouped, Array_sort_byEpisode. Qed.





#[local] Instance Z_lt_antisym : AntiSymm (=) Z.lt.
Proof. intros x y Hxy Hyx. lia. Qed.


(** *** Order inside a section *)

Section Collation.

(** [localeCompare] is a consistent comparison of strings. *)
Hypothesis localeCompare_total :
  ∀ a b : string, localeCompare a b ≤ 0 ∨ localeCompare b a ≤ 0.
Hypothesis localeCompare_trans :
  ∀ a b c : string,
    localeCompare a b ≤ 0 → localeCompare b c ≤ 0 → localeCompare a c ≤ 0.





End Collation.

(** *** Run-end markers *)

Lemma prefix_append (s t : string) : String.prefix s (s +:+ t) = true.
Proof.
  induction s as [|c s IH]; simpl; [by destruct t|].
  destruct (ascii_dec c c); [exact IH|done].
Qed.








End RenderFacts.

(** ** The default collapse of the last episode *)

Section SeedFacts.

Context {host : Host}.

Hypothesis JSON_roundtrip :
  ∀ l : list Z,
    JSON_parse (JSON_stringify (JArr ((λ z, JNum (Int z)) <$> l)))
    = Some (JArr ((λ z, JNum (Int z)) <$> l)).
Hypothesis JSON_stringify_array :
  ∀ l : list jsval, JSON_stringify (JArr l) ≠ "".

Lemma isHighestEpisode_Permutation (l l' : list event) (m : Z) :
  Permutation l l' → isHighestEpisode l m → isHighestEpisode l' m.
Proof.
  intros Hp [(ev & Hin & Hev) Hmax]. split.
  - exists ev. by rewrite <- Hp.
  - intros ev' Hin'. apply Hmax. by rewrite Hp.
Qed.

Lemma grouped_last_highest (l : list event) (G : list (Z * list event)) :
  grouped l G → l ≠ [] → isHighestEpisode l (List.last (fst <$> G) 0).
Proof.
  intros HG Hl. pose proof HG as (Hkeys & Hcat & Hall).
  destruct G as [|g G _] using rev_ind; [by simpl in Hcat|].
  rewrite fmap_app in Hkeys |- *. simpl. rewrite last_last.
  split.
  - apply (grouped_keys l (G ++ [g])); [assumption|].
    rewrite fmap_app. apply elem_of_app. right. by apply list_elem_of_singleton.
  - intros ev Hev. rewrite <- Hcat in Hev.
    apply list_elem_of_In, in_concat in Hev as (evs & Hevs & Hin).
    apply list_elem_of_In, list_elem_of_fmap in Hevs as (g' & -> & Hg').
    rewrite Forall_forall in Hall. destruct (Hall g' Hg') as [_ Hk].
    rewrite Forall_forall in Hk.
    rewrite (Hk ev) by by apply list_elem_of_In.
    apply elem_of_app in Hg' as [Hg'|Hg'].
    + apply StronglySorted_app in Hkeys as (Hlt & _ & _).
      apply Z.lt_le_incl, Hlt; [|by apply list_elem_of_singleton].
      apply list_elem_of_fmap. by exists g'.
    + apply list_elem_of_singleton in Hg' as ->. lia.
Qed.

Lemma resolveCollapsed_absent (st : Storage) (runKey : string)
    (order : list Z) :
  getItem st (collapsedKey runKey) = None → order ≠ [] →
  resolveCollapsed st runKey order =
  ({[Int (List.last order 0)]},
   saveCollapsedMap st runKey {[Int (List.last order 0)]}).
Proof.
  intros Hnone Horder. unfold resolveCollapsed.
  rewrite (loadCollapsedMap_absent st runKey Hnone), Hnone.
  rewrite bool_decide_false by (intros H; by apply H).
  destruct order; [done|]. simpl negb. simpl andb. cbv iota.
  by rewrite (right_id_L ∅ (∪)).
Qed.

Lemma resolveCollapsed_present (st : Storage) (runKey : string)
    (order : list Z) (v : string) :
  getItem st (collapsedKey runKey) = Some v →
  resolveCollapsed st runKey order = (loadCollapsedMap st runKey, st).
Proof.
  intros Hsome. unfold resolveCollapsed. rewrite Hsome.
  by rewrite bool_decide_true.
Qed.

Lemma renderSections_resolved (pg : Page) (events : list event) :
  let G := groupByEpisode (Array_sort compareEvents events) in
  let r :=
    resolveCollapsed (localStorage pg) (currentRunKey pg) (episodesOrder G) in
  localStorage (renderSections pg events) = snd r
  ∧ timeline (renderSections pg events) =
      buildSection (currentRunKey pg) (fst r) <$> G
  ∧ CURRENT_RUN_ID (renderSections pg events) = CURRENT_RUN_ID pg
  ∧ location_hash (renderSections pg events) = location_hash pg
  ∧ location_search (renderSections pg events) = location_search pg.
Proof.
  simpl. unfold renderSections.
  destruct (resolveCollapsed _ _ _) as [persisted st]. done.
Qed.

Lemma episodesOrder_nonempty (events : list event) :
  events ≠ [] →
  episodesOrder (groupByEpisode (Array_sort compareEvents events)) ≠ [].
Proof.
  intros Hev Hnil.
  destruct (renderTimeline_grouped events) as (_ & Hcat & _).
  apply fmap_nil_inv in Hnil. rewrite Hnil in Hcat. simpl in Hcat.
  pose proof (Array_sort_Permutation compareEvents events) as Hp.
  rewrite <- Hcat in Hp. by apply Permutation_nil in Hp.
Qed.

Lemma episodesOrder_last_highest (events : list event) :
  events ≠ [] →
  isHighestEpisode events
    (List.last
       (episodesOrder (groupByEpisode (Array_sort compareEvents events))) 0).
Proof.
  intros Hev.
  apply (isHighestEpisode_Permutation (Array_sort compareEvents events));
    [apply Array_sort_Permutation|].
  apply grouped_last_highest; [apply renderTimeline_grouped|].
  intros Hnil. pose proof (Array_sort_Permutation compareEvents events) as Hp.
  rewrite Hnil in Hp. by apply Permutation_nil in Hp.
Qed.

(** C2.  For a non-empty event list, [renderTimeline] builds the
    sections and then resolves the permalink.  When nothing is stored
    under the run's key and the storage takes the write, the sections
    are built with exactly the highest episode number of the list in
    the collapsed set, and that set is what the storage then holds
    under the key; when a value is stored under the key, whatever it
    is, building the sections leaves the storage as it was. *)
Theorem renderTimeline_default_collapse (pg : Page) (events : list event) :
  events ≠ [] →
  renderTimeline pg events = handlePermalinkOnLoad (renderSections pg events)
  ∧ (getItem (localStorage pg) (COLLAPSED_KEY_PREFIX +:+ currentRunKey pg)
       = None →
     writable (localStorage pg) = true →
     ∃ m : Z,
       isHighestEpisode events m
       ∧ loadCollapsedMap (localStorage (renderSections pg events))
           (currentRunKey pg) = {[Int m]}
       ∧ getItem (localStorage (renderSections pg events))
           (COLLAPSED_KEY_PREFIX +:+ currentRunKey pg)
         = Some (JSON_stringify (JArr [JNum (Int m)]))
       ∧ ∀ sec, sec ∈ timeline (renderSections pg events) →
           (banner_expanded sec = false ↔ sec_episode sec = m))
  ∧ (∀ v : string,
       getItem (localStorage pg) (COLLAPSED_KEY_PREFIX +:+ currentRunKey pg)
         = Some v →
       localStorage (renderSections pg events) = localStorage pg
       ∧ ∀ sec, sec ∈ timeline (renderSections pg events) →
           (banner_expanded sec = false ↔
            collapsedIn (localStorage pg) (currentRunKey pg) (sec_episode sec))).
Proof.
  intros Hev. split; [by destruct events|].
  destruct (renderSections_resolved pg events) as (Hst & Htl & _).
  fold (collapsedKey (currentRunKey pg)).
  set (order := episodesOrder _) in *.
  split.
  - intros Hnone Hw.
    rewrite (resolveCollapsed_absent _ _ order Hnone) in Hst, Htl
      by by apply episodesOrder_nonempty.
    simpl in Hst, Htl.
    exists (List.last order 0). split; [by apply episodesOrder_last_highest|].
    rewrite Hst. split; [|split].
    + apply (load_after_save JSON_roundtrip JSON_stringify_array); [done|].
      set_solver.
    + rewrite saveCollapsedMap_writable by done.
      unfold getItem. simpl. rewrite lookup_insert_eq.
      by rewrite elements_singleton.
    + intros sec Hsec. rewrite Htl in Hsec.
      apply list_elem_of_fmap in Hsec as ([k evs] & -> & _). simpl.
      rewrite negb_false_iff, bool_decide_eq_true.
      rewrite elem_of_singleton. split; [by intros [= ->]|by intros ->].
  - intros v Hsome.
    rewrite (resolveCollapsed_present _ _ order v Hsome) in Hst, Htl.
    simpl in Hst, Htl. split; [exact Hst|].
    intros sec Hsec. rewrite Htl in Hsec.
    apply list_elem_of_fmap in Hsec as ([k evs] & -> & _). simpl.
    by rewrite negb_false_iff, bool_decide_eq_true.
Qed.

End SeedFacts.

(** ** Toggling sections *)

Section ToggleFacts.

Context {host : Host}.

Hypothesis JSON_roundtrip :
  ∀ l : list Z,
    JSON_parse (JSON_stringify (JArr ((λ z, JNum (Int z)) <$> l)))
    = Some (JArr ((λ z, JNum (Int z)) <$> l)).
Hypothesis JSON_stringify_array :
  ∀ l : list jsval, JSON_stringify (JArr l) ≠ "".

(** *** Storage *)

Lemma collapsedKey_inj (r r' : string) :
  collapsedKey r = collapsedKey r' → r = r'.
Proof. unfold collapsedKey, COLLAPSED_KEY_PREFIX. simpl. by intros [=]. Qed.

Lemma loadCollapsedMap_ext (st st' : Storage) (r : string) :
  getItem st (collapsedKey r) = getItem st' (collapsedKey r) →
  loadCollapsedMap st r = loadCollapsedMap st' r.
Proof.
  intros H. unfold loadCollapsedMap, loadCollapsedMap_try. by rewrite H.
Qed.

Lemma writable_save (st : Storage) (r : string) (s : gset jsnum) :
  writable (saveCollapsedMap st r s) = writable st.
Proof.
  unfold saveCollapsedMap, setItem. by destruct (writable st) eqn:Hw.
Qed.

Lemma getItem_save_other (st : Storage) (r : string) (s : gset jsnum)
    (k : string) :
  k ≠ collapsedKey r → getItem (saveCollapsedMap st r s) k = getItem st k.
Proof.
  intros Hk. unfold saveCollapsedMap, setItem, getItem.
  destruct (writable st); [|done]. simpl. by rewrite lookup_insert_ne.
Qed.


Lemma load_save (st : Storage) (r : string) (s : gset jsnum) :
  NaN ∉ s →
  loadCollapsedMap (saveCollapsedMap st r s) r =
  if writable st then s else loadCollapsedMap st r.
Proof.
  intros Hs. destruct (writable st) eqn:Hw.
  - by apply (load_after_save JSON_roundtrip JSON_stringify_array).
  - by rewrite saveCollapsedMap_readonly.
Qed.


Lemma noteCollapsed_numeric (w : bool) (ep : Z) (s : gset jsnum) :
  NaN ∉ s → NaN ∉ noteCollapsed w ep s.
Proof. unfold noteCollapsed. destruct w; set_solver. Qed.

Lemma elem_of_noteCollapsed (w : bool) (ep ep' : Z) (s : gset jsnum) :
  Int ep' ∈ noteCollapsed w ep s ↔
  if decide (ep' = ep) then w = false else Int ep' ∈ s.
Proof.
  unfold noteCollapsed. destruct (decide (ep' = ep)) as [->|Hne].
  - destruct w; set_solver.
  - assert (Int ep' ≠ Int ep) by congruence. destruct w; set_solver.
Qed.

(** *** The sections *)



Lemma episodes_updateSection (ep : Z) (w : bool) (secs : list section) :
  sec_episode <$> updateSection ep (setExpanded w) secs = sec_episode <$> secs.
Proof.
  induction secs as [|sec secs IH]; [done|]. cbn [updateSection].
  destruct (sec_episode sec =? ep); [done|]. by rewrite !fmap_cons, IH.
Qed.

Lemma querySection_updateSection (ep : Z) (w : bool) (secs : list section)
    (sec : section) :
  querySection ep secs = Some sec →
  querySection ep (updateSection ep (setExpanded w) secs)
  = Some (setExpanded w sec).
Proof.
  unfold querySection. induction secs as [|sec' secs IH]; [done|]. simpl.
  destruct (sec_episode sec' =? ep) eqn:He; simpl.
  - intros [= ->]. by rewrite He.
  - rewrite He. exact IH.
Qed.


Lemma toggle_found (pg : Page) (runId : string) (ep : Z)
    (expand : option bool) (sec : section) :
  querySection ep (timeline pg) = Some sec →
  toggleEpisodeSection pg runId ep expand =
  let w := willExpandFor expand (banner_expanded sec) in
  withStorage
    (withTimeline pg (updateSection ep (setExpanded w) (timeline pg)))
    (saveCollapsedMap (localStorage pg) runId
       (noteCollapsed w ep (loadCollapsedMap (localStorage pg) runId))).
Proof. intros H. unfold toggleEpisodeSection. by rewrite H. Qed.




(** *** The displayed state follows the stored set *)


(** *** Rendering establishes the correspondence *)







(** *** Expand all, collapse all *)

Lemma setAllStep_eq (r : string) (c : bool) (pg : Page) (map : gset jsnum)
    (sec : section) :
  setAllStep r c (pg, map) sec =
  (toggleEpisodeSection pg r (sec_episode sec) (Some (negb c)),
   noteCollapsed (negb c) (sec_episode sec) map).
Proof. unfold setAllStep, noteCollapsed. by destruct c. Qed.


Lemma storageFrame_refl (r : string) (st : Storage) : storageFrame r st st.
Proof. done. Qed.

Lemma storageFrame_trans (r : string) (st1 st2 st3 : Storage) :
  storageFrame r st1 st2 → storageFrame r st2 st3 → storageFrame r st1 st3.
Proof.
  intros (Hw1 & Hk1 & Hro1) (Hw2 & Hk2 & Hro2). split; [congruence|]. split.
  - intros k Hk. by rewrite Hk2, Hk1.
  - intros Hw. rewrite Hro2, Hro1; [done..|congruence].
Qed.

Lemma storageFrame_save (r : string) (st : Storage) (s : gset jsnum) :
  storageFrame r st (saveCollapsedMap st r s).
Proof.
  split; [apply writable_save|]. split.
  - intros k Hk. by apply getItem_save_other.
  - apply saveCollapsedMap_readonly.
Qed.

Lemma storageFrame_toggle (pg : Page) (r : string) (ep : Z)
    (expand : option bool) :
  storageFrame r (localStorage pg)
    (localStorage (toggleEpisodeSection pg r ep expand)).
Proof.
  unfold toggleEpisodeSection.
  destruct (querySection ep (timeline pg)); [|apply storageFrame_refl].
  simpl. apply storageFrame_save.
Qed.


Lemma setAllCollapsed_eq (pg : Page) (r : string) (c : bool) :
  setAllCollapsed pg r c =
  let res :=
    fold_left (setAllStep r c) (timeline pg)
      (pg, loadCollapsedMap (localStorage pg) r) in
  withStorage (fst res) (saveCollapsedMap (localStorage (fst res)) r (snd res)).
Proof.
  unfold setAllCollapsed. by destruct (fold_left _ _ _) as [pg' map'].
Qed.







(** *** Sessions *)




(** Whatever the stored set held, after two toggles without a forced
    direction the episode is in it exactly if its section was displayed
    collapsed to begin with (the storage taking the writes). *)
Lemma toggle_twice_follows_display (pg : Page) (r : string) (ep : Z)
    (sec : section) :
  querySection ep (timeline pg) = Some sec →
  writable (localStorage pg) = true →
  NaN ∉ loadCollapsedMap (localStorage pg) r →
  collapsedIn
    (localStorage
       (toggleEpisodeSection (toggleEpisodeSection pg r ep None) r ep None))
    r ep
  ↔ banner_expanded sec = false.
Proof.
  intros Hq Hw Hnum.
  set (pg1 := toggleEpisodeSection pg r ep None).
  assert (querySection ep (timeline pg1)
          = Some (setExpanded (negb (banner_expanded sec)) sec)) as Hq1.
  { unfold pg1. rewrite (toggle_found _ _ _ _ _ Hq). simpl.
    by apply querySection_updateSection. }
  rewrite (toggle_found _ _ _ _ _ Hq1). cbv zeta. simpl localStorage.
  unfold collapsedIn. rewrite load_save.
  - unfold pg1 at 1. rewrite (toggle_found _ _ _ _ _ Hq). simpl localStorage.
    rewrite writable_save, Hw, elem_of_noteCollapsed, decide_True by done.
    simpl. by rewrite negb_involutive.
  - apply noteCollapsed_numeric. unfold pg1.
    rewrite (toggle_found _ _ _ _ _ Hq). simpl localStorage.
    rewrite load_save by by apply noteCollapsed_numeric.
    rewrite Hw. by apply noteCollapsed_numeric.
Qed.


End ToggleFacts.

(** ** Permalinks *)

Section PermalinkFacts.

Context {host : Host}.

(** [String.append] does not unfold under [simpl]. *)
Ltac step_append :=
  repeat change (String ?c ?s +:+ ?t) with (String c (s +:+ t));
  repeat change ("" +:+ ?t) with t.

Lemma append_empty_r (s : string) : s +:+ "" = s.
Proof. induction s as [|c s IH]; step_append; congruence. Qed.

Lemma splitAtQuestionMark_first (a q : string) :
  noQuestionMark a →
  splitAtQuestionMark (a +:+ String "?" q) = Some (a, q).
Proof.
  unfold noQuestionMark.
  induction a as [|c a IH]; step_append; simpl; intros Ha; [done|].
  apply Forall_cons in Ha as [Hc Ha].
  destruct (Ascii.eqb_spec c "?"); [done|]. by rewrite IH.
Qed.

Lemma splitAtQuestionMark_none (a : string) :
  noQuestionMark a → splitAtQuestionMark a = None.
Proof.
  unfold noQuestionMark. induction a as [|c a IH]; simpl; intros Ha; [done|].
  apply Forall_cons in Ha as [Hc Ha].
  destruct (Ascii.eqb_spec c "?"); [done|]. by rewrite IH.
Qed.

(** The hash is cut at its first question mark: what stands before it
    is the anchor, and the parameters after it override the page's. *)
Lemma parseHashAnchorAndParams_split (pg : Page) (anchor : string)
    (hashQuery : option string) :
  noQuestionMark anchor →
  (hashQuery = None → anchor ≠ "") →
  location_hash pg =
    String "#" (anchor +:+ match hashQuery with
                            | Some q => String "?" q
                            | None => ""
                            end) →
  parseHashAnchorAndParams pg = (Some anchor, mergedParams pg hashQuery).
Proof.
  intros Ha Hne Hhash. unfold parseHashAnchorAndParams. rewrite Hhash.
  simpl stripHash. destruct hashQuery as [q|]; simpl mergedParams.
  - rewrite splitAtQuestionMark_first by done.
    destruct (String.eqb_spec (anchor +:+ String "?" q) "") as [He|_];
      [by destruct anchor|done].
  - rewrite append_empty_r.
    rewrite splitAtQuestionMark_none by done.
    destruct (String.eqb_spec anchor "") as [He|_]; [by apply Hne in He|done].
Qed.

Lemma substring_all (s : string) : String.substring 0 (String.length s) s = s.
Proof. induction s as [|c s IH]; simpl; congruence. Qed.

Lemma matchEpisodeAnchor_digits (digits : list ascii) :
  digits ≠ [] →
  Forall (λ c, JSString.is_digit c = true) digits →
  matchEpisodeAnchor ("episode-" +:+ string_of_list_ascii digits)
  = Some digits.
Proof.
  intros Hne Hdigits. unfold matchEpisodeAnchor.
  rewrite prefix_append.
  change (String.length ("episode-" +:+ string_of_list_ascii digits))
    with (8 + String.length (string_of_list_ascii digits))%nat.
  replace (8 + String.length (string_of_list_ascii digits) - 8)%nat
    with (String.length (string_of_list_ascii digits)) by lia.
  change (String.substring 8 ?n ("episode-" +:+ ?s))
    with (String.substring 0 n s).
  rewrite substring_all, list_ascii_of_string_of_list_ascii.
  destruct digits as [|c digits]; [done|].
  rewrite Forall_forall in Hdigits.
  rewrite (proj2 (forallb_forall _ _)); [done|].
  intros c' Hc'. apply Hdigits. by apply list_elem_of_In.
Qed.

Lemma digits_noQuestionMark (digits : list ascii) :
  Forall (λ c, JSString.is_digit c = true) digits →
  noQuestionMark ("episode-" +:+ string_of_list_ascii digits).
Proof.
  intros Hdigits. unfold noQuestionMark. step_append. simpl.
  repeat (constructor; [done|]).
  rewrite list_ascii_of_string_of_list_ascii.
  eapply Forall_impl; [exact Hdigits|]. by intros c Hc ->.
Qed.

(** C4.  For a hash [#episode-<digits>], with or without a query after
    a question mark, permalink resolution takes [episode-<digits>] as
    the anchor, reads [spoiler] from the parameters of the hash merged
    over those of the page, and forces the rendered section of that
    episode: it ends collapsed when [spoiler] is exactly ["0"] and
    expanded for any other value or none. *)
Theorem permalink_anchor_resolution (pg : Page) (digits : list ascii)
    (hashQuery : option string) (sec : section) :
  digits ≠ [] →
  Forall (λ c, JSString.is_digit c = true) digits →
  location_hash pg =
    "#episode-" +:+ string_of_list_ascii digits
    +:+ match hashQuery with Some q => "?" +:+ q | None => "" end →
  querySection (digitsValue digits) (timeline pg) = Some sec →
  let params := mergedParams pg hashQuery in
  let expand := negb (bool_decide (params_get "spoiler" params = Some "0")) in
  parseHashAnchorAndParams pg
  = (Some ("episode-" +:+ string_of_list_ascii digits), params)
  ∧ handlePermalinkOnLoad pg
    = toggleEpisodeSection pg (currentRunKey pg) (digitsValue digits)
        (Some expand)
  ∧ ∃ sec',
      querySection (digitsValue digits) (timeline (handlePermalinkOnLoad pg))
      = Some sec'
      ∧ banner_expanded sec' = expand
      ∧ contents_collapsed sec' = negb expand
      ∧ contents_hidden sec' = negb expand.
Proof.
  intros Hne Hdigits Hhash Hq. cbv zeta.
  assert (parseHashAnchorAndParams pg
          = (Some ("episode-" +:+ string_of_list_ascii digits),
             mergedParams pg hashQuery)) as Hparse.
  { apply parseHashAnchorAndParams_split;
      [by apply digits_noQuestionMark|done|].
    rewrite Hhash. by destruct hashQuery. }
  assert (handlePermalinkOnLoad pg
          = toggleEpisodeSection pg (currentRunKey pg) (digitsValue digits)
              (Some (negb (bool_decide
                 (params_get "spoiler" (mergedParams pg hashQuery)
                  = Some "0"))))) as Hhandle.
  { unfold handlePermalinkOnLoad. rewrite Hparse. simpl mbind.
    cbv beta iota. unfold mbind, option_bind.
    by rewrite matchEpisodeAnchor_digits. }
  split; [exact Hparse|]. split; [exact Hhandle|].
  rewrite Hhandle.
  unfold toggleEpisodeSection. rewrite Hq. simpl.
  eexists. split; [by apply querySection_updateSection|done].
Qed.

End PermalinkFacts.

(** ** The initial run *)

Lemma or_chain_found (p d : string) (o : option string) :
  p ≠ "" →
  JSString.or_else (or_opt (or_opt (Some p) (Some d)) o) d = p.
Proof.
  intros Hp. apply String.eqb_neq in Hp.
  unfold or_opt, JSString.or_else, JSString.truthy.
  repeat (rewrite Hp; simpl). done.
Qed.

Lemma or_chain_fallback (d : string) (runs : list run) :
  JSString.or_else (or_opt (or_opt None (Some d)) (run_id <$> head runs)) d =
  if bool_decide (d ≠ "") then d
  else
    match runs with
    | first :: _ => if bool_decide (run_id first ≠ "")
                    then run_id first else d
    | [] => d
    end.
Proof.
  unfold or_opt, JSString.or_else, JSString.truthy.
  case_bool_decide as Hd.
  - apply String.eqb_neq in Hd. by repeat (rewrite Hd; simpl).
  - assert (d = "") as -> by by destruct (decide (d = "")).
    destruct runs as [|first runs]; [done|]. simpl.
    case_bool_decide as He.
    + apply String.eqb_neq in He. by repeat (rewrite He; simpl).
    + assert (run_id first = "") as -> by by destruct (decide (run_id first = "")).
      done.
Qed.

(** C8.  The initial run is the [run] query parameter when it is the id
    of a run of the index; otherwise the configured default id when
    there is one; otherwise the id of the first run of the index.  With
    the default id of the script, ["run-02"], the choice is between the
    matching parameter and that default. *)
Theorem initial_run_precedence (runParam : option string) (runs : list run) :
  (∀ defaultRunId : string,
     chooseInitialRun defaultRunId runParam runs =
     if bool_decide (JSString.truthy runParam = true
                     ∧ default "" runParam ∈ run_id <$> runs)
     then default "" runParam
     else if bool_decide (defaultRunId ≠ "") then defaultRunId
     else
       match runs with
       | first :: _ => if bool_decide (run_id first ≠ "")
                       then run_id first else defaultRunId
       | [] => defaultRunId
       end)
  ∧ initialRun runParam runs =
    if bool_decide (JSString.truthy runParam = true
                    ∧ default "" runParam ∈ run_id <$> runs)
    then default "" runParam
    else "run-02".
Proof.
  assert (∀ d, chooseInitialRun d runParam runs =
     if bool_decide (JSString.truthy runParam = true
                     ∧ default "" runParam ∈ run_id <$> runs)
     then default "" runParam
     else if bool_decide (d ≠ "") then d
     else
       match runs with
       | first :: _ => if bool_decide (run_id first ≠ "")
                       then run_id first else d
       | [] => d
       end) as Hgen.
  { intros d. unfold chooseInitialRun.
    destruct (JSString.truthy runParam) eqn:Hp.
    - destruct (List.find _ runs) as [r|] eqn:Hfind.
      + apply find_some in Hfind as [Hin Heq]. apply String.eqb_eq in Heq.
        rewrite bool_decide_true.
        2:{ split; [done|]. rewrite <- Heq. apply list_elem_of_fmap.
            exists r. split; [done|by apply list_elem_of_In]. }
        simpl. rewrite Heq. apply or_chain_found.
        destruct runParam as [p|]; [|done]. simpl in *.
        apply negb_true_iff in Hp. by apply String.eqb_neq.
      + rewrite bool_decide_false.
        2:{ intros [_ Hin]. apply list_elem_of_fmap in Hin as (r & Hr & Hin).
            apply list_elem_of_In in Hin.
            apply (find_none _ _ Hfind) in Hin.
            rewrite Hr, String.eqb_refl in Hin. done. }
        apply or_chain_fallback.
    - rewrite bool_decide_false by (by intros [? _]).
      apply or_chain_fallback. }
  split; [exact Hgen|].
  unfold initialRun. rewrite Hgen. reflexivity.
Qed.

(** ** The host of the examples *)

Module SimpleHostFacts.

Import SimpleHost.

Ltac step_append :=
  repeat change (String ?c ?s +:+ ?t) with (String c (s +:+ t));
  repeat change ("" +:+ ?t) with t.

(** **** JSON *)

Lemma stringify_array (l : list jsval) : stringify (JArr l) ≠ "".
Proof. unfold stringify. step_append. discriminate. Qed.

Lemma chars_append (a b : string) :
  list_ascii_of_string (a +:+ b)
  = list_ascii_of_string a ++ list_ascii_of_string b.
Proof. induction a as [|c a IH]; step_append; simpl; congruence. Qed.

Lemma string_of_uint_chars (d : Decimal.uint) :
  Forall isNumberChar (list_ascii_of_string (NilEmpty.string_of_uint d)).
Proof. induction d; simpl; constructor; (by left) || assumption. Qed.

Lemma showInt_chars (z : Z) :
  Forall isNumberChar (list_ascii_of_string (showInt z)).
Proof.
  unfold showInt, NilZero.string_of_int, NilZero.string_of_uint.
  destruct (Z.to_int z) as [d|d]; [|constructor; [by right|]];
    destruct d; try apply string_of_uint_chars;
    repeat constructor; by left.
Qed.

Lemma int_roundtrip (z : Z) :
  NilZero.int_of_string (showInt z) = Some (Z.to_int z).
Proof.
  unfold showInt. apply NilZero.isi; destruct z as [|p|p]; simpl; try done;
    intros [= H]; by apply DecimalPos.Unsigned.to_uint_nonnil in H.
Qed.

Lemma readItem_showInt (z : Z) :
  readItem (list_ascii_of_string (showInt z)) = Some (JNum (Int z)).
Proof.
  unfold readItem. rewrite string_of_list_ascii_of_string.
  pose proof (showInt_chars z) as Hchars.
  pose proof (int_roundtrip z) as Hint.
  destruct (showInt z) as [|c s]; [done|].
  simpl in Hchars. apply Forall_cons in Hchars as [Hc _].
  assert (c ≠ "n"%char ∧ c ≠ "t"%char ∧ c ≠ "f"%char) as (Hn & Ht & Hf).
  { destruct Hc as [Hc| ->]; [|done]. repeat split; by intros ->. }
  assert ((String c s =? "null")%string = false) as ->.
  { apply String.eqb_neq. by intros [= -> _]. }
  assert ((String c s =? "true")%string = false) as ->.
  { apply String.eqb_neq. by intros [= -> _]. }
  assert ((String c s =? "false")%string = false) as ->.
  { apply String.eqb_neq. by intros [= -> _]. }
  rewrite Hint. simpl. by rewrite DecimalZ.of_to.
Qed.

(** Reading runs over the characters of an item up to the next comma
    or bracket. *)
Lemma readItems_scan (t cur : list ascii) (acc : list jsval)
    (rest : list ascii) :
  Forall isNumberChar t →
  readItems cur acc (t ++ rest) = readItems (rev t ++ cur) acc rest.
Proof.
  revert cur. induction t as [|c t IH]; intros cur Ht; [done|].
  apply Forall_cons in Ht as [Hc Ht]. simpl.
  assert (Ascii.eqb c "]" = false ∧ Ascii.eqb c "," = false) as [-> ->].
  { split; apply Ascii.eqb_neq; destruct Hc as [Hc| ->]; try done;
      by intros ->. }
  rewrite IH by done. by rewrite <- app_assoc.
Qed.

Lemma readItems_comma (cur : list ascii) (acc : list jsval)
    (rest : list ascii) (v : jsval) :
  readItem (rev cur) = Some v →
  readItems cur acc (","%char :: rest) = readItems [] (v :: acc) rest.
Proof. intros H. simpl. by rewrite H. Qed.

Lemma readItems_close (cur : list ascii) (acc : list jsval) (v : jsval) :
  cur ≠ [] →
  readItem (rev cur) = Some v →
  readItems cur acc ["]"%char] = Some (JArr (rev (v :: acc))).
Proof.
  intros Hcur H. simpl. destruct cur as [|c cur]; [done|].
  rewrite H. by destruct acc.
Qed.

Lemma showInt_nonempty (z : Z) : rev (list_ascii_of_string (showInt z)) ≠ [].
Proof.
  intros H. apply (f_equal (@rev ascii)) in H. rewrite rev_involutive in H.
  pose proof (readItem_showInt z) as Hread. by rewrite H in Hread.
Qed.

Lemma readItems_showItems (z : Z) (l : list Z) (acc : list jsval) :
  readItems [] acc
    (list_ascii_of_string (showItems (ints (z :: l))) ++ ["]"%char])
  = Some (JArr (rev acc ++ ints (z :: l))).
Proof.
  revert z acc. induction l as [|z' l IH]; intros z acc.
  - change (showItems (ints [z])) with (showInt z).
    rewrite readItems_scan by apply showInt_chars.
    rewrite app_nil_r.
    rewrite (readItems_close _ _ (JNum (Int z)));
      [done|apply showInt_nonempty|].
    rewrite rev_involutive. apply readItem_showInt.
  - change (showItems (ints (z :: z' :: l)))
      with (showInt z +:+ "," +:+ showItems (ints (z' :: l))).
    rewrite chars_append.
    change (list_ascii_of_string ("," +:+ ?s))
      with (","%char :: list_ascii_of_string s).
    rewrite <- app_assoc, <- app_comm_cons.
    rewrite readItems_scan by apply showInt_chars.
    rewrite app_nil_r.
    rewrite (readItems_comma _ _ _ (JNum (Int z)));
      [|rewrite rev_involutive; apply readItem_showInt].
    rewrite IH. simpl. by rewrite <- app_assoc.
Qed.

Lemma parse_stringify (l : list Z) :
  parse (stringify (JArr ((λ z, JNum (Int z)) <$> l)))
  = Some (JArr ((λ z, JNum (Int z)) <$> l)).
Proof.
  unfold stringify. step_append. simpl parse.
  rewrite chars_append. destruct l as [|z l]; [done|].
  apply (readItems_showItems z l []).
Qed.

(** **** Comparison *)





End SimpleHostFacts.

(** ** The theorems at work on the sample data *)

Section Witnesses.

#[local] Existing Instance SimpleHost.host.


Lemma renderTimeline_default_collapse_witness :
  Sample.events ≠ []
  ∧ getItem (localStorage Sample.blank)
      (COLLAPSED_KEY_PREFIX +:+ currentRunKey Sample.blank) = None
  ∧ writable (localStorage Sample.blank) = true
  ∧ (∃ m : Z,
       isHighestEpisode Sample.events m
       ∧ loadCollapsedMap
           (localStorage (renderSections Sample.blank Sample.events))
           (currentRunKey Sample.blank) = {[Int m]})
  ∧ getItem (localStorage Sample.seeded)
      (COLLAPSED_KEY_PREFIX +:+ currentRunKey Sample.seeded) = Some "[]"
  ∧ localStorage (renderSections Sample.seeded Sample.events)
    = localStorage Sample.seeded.
Proof.
  assert (Sample.events ≠ []) as Hne by discriminate.
  split; [exact Hne|]. split; [reflexivity|]. split; [reflexivity|]. split.
  - destruct (renderTimeline_default_collapse (host := SimpleHost.host)
                SimpleHostFacts.parse_stringify SimpleHostFacts.stringify_array
                Sample.blank Sample.events Hne) as (_ & Habsent & _).
    destruct (Habsent eq_refl eq_refl) as (m & Hm & Hload & _).
    exists m. split; [exact Hm|exact Hload].
  - split; [reflexivity|].
    destruct (renderTimeline_default_collapse (host := SimpleHost.host)
                SimpleHostFacts.parse_stringify SimpleHostFacts.stringify_array
                Sample.seeded Sample.events Hne) as (_ & _ & Hpresent).
    exact (proj1 (Hpresent "[]" eq_refl)).
Defined.

Lemma save_then_load_witness :
  writable Sample.emptyStorage = true
  ∧ loadCollapsedMap
      (saveCollapsedMap Sample.emptyStorage "run-01"
         {[Int 1; Int 5]})
      "run-01"
    = {[Int 1; Int 5]}.
Proof.
  split; [reflexivity|].
  apply (save_then_load (host := SimpleHost.host)
           SimpleHostFacts.parse_stringify SimpleHostFacts.stringify_array);
    [reflexivity|].
  intros n Hn. apply elem_of_union in Hn as [Hn|Hn];
    apply elem_of_singleton in Hn; rewrite Hn; eexists; reflexivity.
Defined.



Lemma permalink_anchor_resolution_witness :
  (∃ sec',
     querySection 5
       (timeline (handlePermalinkOnLoad
                    (Sample.rendered "#episode-5?spoiler=0")))
     = Some sec'
     ∧ banner_expanded sec' = false ∧ contents_collapsed sec' = true)
  ∧ (∃ sec',
       querySection 5
         (timeline (handlePermalinkOnLoad
                      (Sample.rendered "#episode-5")))
       = Some sec'
       ∧ banner_expanded sec' = true ∧ contents_collapsed sec' = false).
Proof.
  split.
  - destruct (querySection 5 (timeline (Sample.rendered "#episode-5?spoiler=0")))
      as [sec|] eqn:Hq; [|vm_compute in Hq; discriminate Hq].
    destruct (permalink_anchor_resolution (host := SimpleHost.host)
                (Sample.rendered "#episode-5?spoiler=0") ["5"%char]
                (Some "spoiler=0") sec)
      as (_ & _ & sec' & Hq' & Hb & Hc & _);
      [discriminate|repeat constructor|reflexivity|exact Hq|].
    exists sec'. split; [exact Hq'|]. split; [exact Hb|exact Hc].
  - destruct (querySection 5 (timeline (Sample.rendered "#episode-5")))
      as [sec|] eqn:Hq; [|vm_compute in Hq; discriminate Hq].
    destruct (permalink_anchor_resolution (host := SimpleHost.host)
                (Sample.rendered "#episode-5") ["5"%char] None sec)
      as (_ & _ & sec' & Hq' & Hb & Hc & _);
      [discriminate|repeat constructor|reflexivity|exact Hq|].
    exists sec'. split; [exact Hq'|]. split; [exact Hb|exact Hc].
Defined.


(** The script run on the sample data. *)

Example sample_speciesToFilename :
  speciesToFilename (Some "  Farfetch'd ") = Some "farfetchd"
  ∧ speciesToFilename (Some "Type:  Null") = Some "type-null"
  ∧ spriteUrlFor (Some "Mr. Mime") = Some "sprites/mr-mime.png"
  ∧ badgeUrlFor (Some "!!!") = None.
Proof. repeat split; reflexivity. Qed.

Example sample_render :
  Sample.shown (renderTimeline Sample.blank Sample.events)
  = [(0, true); (1, true); (2, false)]
  ∧ Sample.stored (renderTimeline Sample.blank Sample.events) "run-01"
    = Some "[2]"
  ∧ episodeCardCounts (renderTimeline Sample.blank Sample.events)
    = [(0, 1%nat); (1, 1%nat); (2, 2%nat)].
Proof. repeat split; vm_compute; reflexivity. Qed.

Example sample_stored_empty_list :
  Sample.shown (renderTimeline Sample.seeded Sample.events)
  = [(0, true); (1, true); (2, true)].
Proof. vm_compute. reflexivity. Qed.

Example sample_permalink_undoes_default :
  Sample.shown
    (renderTimeline (Sample.pageWith Sample.emptyStorage "#episode-2" "")
       Sample.events)
  = [(0, true); (1, true); (2, true)]
  ∧ Sample.stored
      (renderTimeline (Sample.pageWith Sample.emptyStorage "#episode-2" "")
         Sample.events)
      "run-01"
    = Some "[]".
Proof. split; vm_compute; reflexivity. Qed.

Example sample_initial_run :
  initialRun (Some "run-01")
    [{| run_id := "run-01"; run_title := None |};
     {| run_id := "run-02"; run_title := None |}] = "run-01"
  ∧ initialRun (Some "run-09") [{| run_id := "run-01"; run_title := None |}]
    = "run-02"
  ∧ initialRun None [{| run_id := "run-01"; run_title := None |}] = "run-02"
  ∧ chooseInitialRun "" None [{| run_id := "run-01"; run_title := None |}]
    = "run-01".
Proof. repeat split; reflexivity. Qed.

End Witnesses.

(** ** File names that are normalised already *)

Section NameFacts.

Lemma filename_char_plain (c : ascii) :
  JSString.is_filename_char c = true →
  JSString.is_upper c = false
  ∧ JSString.is_space c = false
  ∧ (JSString.code c =? 39)%N = false
  ∧ (JSString.code c =? 226)%N = false.
Proof.
  unfold JSString.is_filename_char, JSString.is_lower, JSString.is_digit,
    JSString.is_upper, JSString.is_space.
  generalize (JSString.code c). intros n.
  rewrite !orb_true_iff, !andb_true_iff, !N.leb_le, N.eqb_eq.
  rewrite andb_false_iff, orb_false_iff, andb_false_iff.
  rewrite !N.leb_gt, !N.eqb_neq. lia.
Qed.

Lemma lower_filename_chars (l : list ascii) :
  Forall (λ c, JSString.is_filename_char c = true) l →
  List.map JSString.lower_char l = l.
Proof.
  induction 1 as [|c l Hc _ IH]; [reflexivity|]. simpl.
  unfold JSString.lower_char at 1.
  destruct (filename_char_plain c Hc) as (-> & _). by rewrite IH.
Qed.

Lemma drop_spaces_filename_chars (l : list ascii) :
  Forall (λ c, JSString.is_filename_char c = true) l →
  JSString.drop_spaces l = l.
Proof.
  destruct 1 as [|c l Hc _]; [reflexivity|]. simpl.
  by destruct (filename_char_plain c Hc) as (_ & -> & _).
Qed.

Lemma strip_filename_chars (l : list ascii) :
  Forall (λ c, JSString.is_filename_char c = true) l →
  JSString.strip_apostrophes l = l.
Proof.
  induction 1 as [|c l Hc _ IH]; [reflexivity|].
  destruct (filename_char_plain c Hc) as (_ & _ & H39 & H226).
  simpl. rewrite H39, H226. simpl.
  destruct l as [|c2 [|c3 l]]; by rewrite IH.
Qed.

Lemma hyphenate_filename_chars (b : bool) (l : list ascii) :
  Forall (λ c, JSString.is_filename_char c = true) l →
  JSString.hyphenate_from b l = l.
Proof.
  intros H. revert b. induction H as [|c l Hc _ IH]; intros b; [reflexivity|].
  simpl. destruct (filename_char_plain c Hc) as (_ & -> & _). by rewrite IH.
Qed.

Lemma keep_filename_chars_id (l : list ascii) :
  Forall (λ c, JSString.is_filename_char c = true) l →
  JSString.keep_filename_chars l = l.
Proof.
  unfold JSString.keep_filename_chars.
  induction 1 as [|c l Hc _ IH]; [reflexivity|]. simpl. by rewrite Hc, IH.
Qed.

Lemma normalizeName_fixes_filenames (l : list ascii) :
  Forall (λ c, JSString.is_filename_char c = true) l →
  normalizeName (string_of_list_ascii l) = string_of_list_ascii l.
Proof.
  intros Hl. unfold normalizeName, JSString.toLowerCase, JSString.trim.
  rewrite !list_ascii_of_string_of_list_ascii.
  rewrite (lower_filename_chars l Hl).
  rewrite ?list_ascii_of_string_of_list_ascii.
  rewrite (drop_spaces_filename_chars l Hl).
  rewrite (drop_spaces_filename_chars (rev l))
    by (by apply Forall_rev).
  rewrite rev_involutive, ?list_ascii_of_string_of_list_ascii.
  rewrite (strip_filename_chars l Hl).
  unfold JSString.hyphenate. rewrite (hyphenate_filename_chars false l Hl).
  by rewrite (keep_filename_chars_id l Hl).
Qed.

Lemma normalizeName_idempotent (s : string) :
  normalizeName (normalizeName s) = normalizeName s.
Proof.
  pose proof (normalizeName_alphabet s) as Hl.
  rewrite <- (string_of_list_ascii_of_string (normalizeName s)).
  by apply normalizeName_fixes_filenames.
Qed.

Lemma speciesToFilename_Some (s : string) :
  speciesToFilename (Some s)
  = if String.eqb s "" then None else Some (normalizeName s).
Proof. unfold speciesToFilename. simpl. by destruct (String.eqb s ""). Qed.

(** X1.  A name in file-name form is left alone.  Normalising a name a
    second time changes nothing, so a species or badge that the data
    gives as its file name (["mr-mime"]) gets the image address of the
    name it stands for: [spriteUrlFor] and [badgeUrlFor] answer the same
    for a name and for its file name.  [speciesToFilename] itself is
    not idempotent: a name made of removed characters only gives the
    empty file name, and the empty file name gives [null]. *)
Theorem filename_form_same_image (name : option string) (s : string) :
  normalizeName (normalizeName s) = normalizeName s
  ∧ spriteUrlFor (speciesToFilename name) = spriteUrlFor name
  ∧ badgeUrlFor (speciesToFilename name) = badgeUrlFor name
  ∧ speciesToFilename (Some "!") = Some ""
  ∧ speciesToFilename (speciesToFilename (Some "!")) = None.
Proof.
  split; [apply normalizeName_idempotent|].
  assert (speciesToFilename (speciesToFilename name) = speciesToFilename name
          ∨ (speciesToFilename name = Some ""
             ∧ speciesToFilename (speciesToFilename name) = None)) as H.
  { destruct name as [s'|]; [|by left].
    rewrite speciesToFilename_Some.
    destruct (String.eqb s' "") eqn:Hs; [by left|].
    rewrite speciesToFilename_Some, normalizeName_idempotent.
    destruct (String.eqb (normalizeName s') "") eqn:Hn; [|by left].
    right. apply String.eqb_eq in Hn. by rewrite Hn. }
  split; [|split; [|by split]].
  - unfold spriteUrlFor. cbv zeta.
    destruct H as [->|[Hf ->]]; [done|]. by rewrite Hf.
  - unfold badgeUrlFor. cbv zeta.
    destruct H as [->|[Hf ->]]; [done|]. by rewrite Hf.
Qed.

End NameFacts.
(** ** What the handlers keep of the page *)

Section DisplayFacts.

Context {host : Host}.

(** Permalink resolution is at most one forced toggle under the key of
    the current run. *)
Lemma handlePermalinkOnLoad_cases (pg : Page) :
  handlePermalinkOnLoad pg = pg
  ∨ ∃ ep b,
      handlePermalinkOnLoad pg
      = toggleEpisodeSection pg (currentRunKey pg) ep (Some b).
Proof.
  unfold handlePermalinkOnLoad.
  destruct (parseHashAnchorAndParams pg) as [anchor params].
  destruct (anchor ≫= matchEpisodeAnchor); [right; eauto|].
  destruct (JSString.truthy _); [|by left].
  destruct (StringToNumber _); [right; eauto|by left].
Qed.

Lemma fold_setAllStep_invariant (I : Page → Prop) (r : string) (c : bool) :
  (∀ pg ep b, I pg → I (toggleEpisodeSection pg r ep (Some b))) →
  ∀ secs pg map,
    I pg → I (fst (fold_left (setAllStep r c) secs (pg, map))).
Proof.
  intros Hstep secs. induction secs as [|sec secs IH]; intros pg map Hpg;
    [done|].
  cbn [fold_left]. rewrite setAllStep_eq. by apply IH, Hstep.
Qed.

(** *** The attributes of a section *)

Lemma coherent_updateSection (ep : Z) (w : bool) (secs : list section) :
  Forall coherent secs →
  Forall coherent (updateSection ep (setExpanded w) secs).
Proof.
  induction 1 as [|sec secs Hsec Hsecs IH]; simpl; [constructor|].
  destruct (sec_episode sec =? ep); constructor; done.
Qed.

Lemma coherent_toggle (pg : Page) (r : string) (ep : Z)
    (expand : option bool) :
  Forall coherent (timeline pg) →
  Forall coherent (timeline (toggleEpisodeSection pg r ep expand)).
Proof.
  intros H. unfold toggleEpisodeSection.
  destruct (querySection ep (timeline pg)); [|done].
  simpl. by apply coherent_updateSection.
Qed.

Lemma coherent_handlePermalinkOnLoad (pg : Page) :
  Forall coherent (timeline pg) →
  Forall coherent (timeline (handlePermalinkOnLoad pg)).
Proof.
  intros H.
  destruct (handlePermalinkOnLoad_cases pg) as [->|(ep & b & ->)];
    [done|by apply coherent_toggle].
Qed.

Lemma coherent_renderTimeline (pg : Page) (events : list event) :
  Forall coherent (timeline (renderTimeline pg events)).
Proof.
  destruct events as [|ev events]; [constructor|].
  unfold renderTimeline. apply coherent_handlePermalinkOnLoad.
  destruct (timeline_renderSections pg (ev :: events)) as [persisted ->].
  apply Forall_fmap, Forall_forall. intros [k evs] _.
  repeat split; simpl; by rewrite ?negb_involutive.
Qed.

Lemma coherent_setAllCollapsed (pg : Page) (r : string) (c : bool) :
  Forall coherent (timeline pg) →
  Forall coherent (timeline (setAllCollapsed pg r c)).
Proof.
  intros H. rewrite setAllCollapsed_eq. cbv zeta. simpl timeline.
  apply (fold_setAllStep_invariant (λ pg, Forall coherent (timeline pg)));
    [|done].
  intros pg' ep b. apply coherent_toggle.
Qed.

Lemma coherent_handle (pg : Page) (a : action) :
  Forall coherent (timeline pg) → Forall coherent (timeline (handle pg a)).
Proof.
  intros H. destruct a as [ep| | |ep|runId search events|runId events]; simpl.
  - destruct (querySection ep (timeline pg)); [|done]. by apply coherent_toggle.
  - by apply coherent_setAllCollapsed.
  - by apply coherent_setAllCollapsed.
  - by apply coherent_toggle.
  - apply coherent_renderTimeline.
  - apply coherent_renderTimeline.
Qed.

(** X2.  Whatever a session does (a run is displayed, then banners are
    clicked, all sections expanded or collapsed, episodes jumped to,
    runs selected or displayed again), every section of the page has
    attributes that agree: its contents carry the class [collapsed],
    [aria-hidden="true"] and a hidden overflow exactly when the
    banner's [aria-expanded] is ["false"]. *)
Theorem sections_stay_coherent (pg0 : Page) (runId : option string)
    (events : list event) (actions : list action) :
  Forall
    (λ sec,
       contents_collapsed sec = negb (banner_expanded sec)
       ∧ contents_hidden sec = negb (banner_expanded sec)
       ∧ contents_overflow_visible sec = banner_expanded sec)
    (timeline (session pg0 runId events actions)).
Proof.
  change (Forall coherent (timeline (session pg0 runId events actions))).
  unfold session. induction actions as [|a actions IH] using rev_ind.
  - apply coherent_renderTimeline.
  - rewrite fold_left_app. simpl. by apply coherent_handle.
Qed.

(** *** Expand all, collapse all: the display *)

Lemma querySection_app_fresh (ep : Z) (pre suf : list section) :
  ep ∉ sec_episode <$> pre →
  querySection ep (pre ++ suf) = querySection ep suf.
Proof.
  unfold querySection. induction pre as [|sec pre IH]; [done|].
  rewrite fmap_cons, not_elem_of_cons. intros [Hne Hpre]. simpl.
  destruct (Z.eqb_spec (sec_episode sec) ep) as [He|_]; [by symmetry in He|].
  by apply IH.
Qed.

Lemma updateSection_app_fresh (ep : Z) (f : section → section)
    (pre suf : list section) :
  ep ∉ sec_episode <$> pre →
  updateSection ep f (pre ++ suf) = pre ++ updateSection ep f suf.
Proof.
  induction pre as [|sec pre IH]; [done|].
  rewrite fmap_cons, not_elem_of_cons. intros [Hne Hpre]. simpl.
  destruct (Z.eqb_spec (sec_episode sec) ep) as [He|_]; [by symmetry in He|].
  by rewrite IH.
Qed.

Lemma episodes_setExpanded (w : bool) (secs : list section) :
  sec_episode <$> (setExpanded w <$> secs) = sec_episode <$> secs.
Proof. rewrite <- list_fmap_compose. by apply list_fmap_ext. Qed.

Lemma fold_setAllStep_timeline (r : string) (c : bool)
    (pre suf : list section) (pg : Page) (map : gset jsnum) :
  NoDup (sec_episode <$> (pre ++ suf)) →
  timeline pg = (setExpanded (negb c) <$> pre) ++ suf →
  timeline (fst (fold_left (setAllStep r c) suf (pg, map)))
  = setExpanded (negb c) <$> (pre ++ suf).
Proof.
  revert pre pg map. induction suf as [|sec suf IH]; intros pre pg map Hnd Htl.
  - simpl. by rewrite Htl, !app_nil_r.
  - cbn [fold_left]. rewrite setAllStep_eq.
    assert (sec_episode sec ∉ sec_episode <$> (setExpanded (negb c) <$> pre))
      as Hfresh.
    { rewrite episodes_setExpanded. rewrite fmap_app in Hnd.
      apply NoDup_app in Hnd as (_ & Hdisj & _). intros Hin.
      apply (Hdisj _ Hin). rewrite fmap_cons. by left. }
    assert (querySection (sec_episode sec) (timeline pg) = Some sec) as Hq.
    { rewrite Htl, querySection_app_fresh by done.
      unfold querySection. simpl. by rewrite Z.eqb_refl. }
    rewrite (cons_middle sec pre suf), app_assoc.
    apply IH; [by rewrite <- app_assoc|].
    rewrite (toggle_found _ _ _ _ _ Hq). cbv zeta. simpl timeline.
    rewrite Htl, updateSection_app_fresh by done. simpl.
    rewrite Z.eqb_refl, fmap_app. simpl. by rewrite <- app_assoc.
Qed.

(** X3.  On a page with one section per episode, [setAllCollapsed]
    leaves every section expanded ([collapsed = false]) or every section
    collapsed ([collapsed = true]), whatever the run id it is called
    with: the sections are the same in number, order, episode and
    contents, and each carries the attributes of the forced state. *)
Theorem setAllCollapsed_display (pg : Page) (runId : string)
    (collapsed : bool) :
  NoDup (sec_episode <$> timeline pg) →
  timeline (setAllCollapsed pg runId collapsed)
  = setExpanded (negb collapsed) <$> timeline pg
  ∧ Forall
      (λ sec,
         banner_expanded sec = negb collapsed
         ∧ contents_collapsed sec = collapsed
         ∧ contents_hidden sec = collapsed
         ∧ contents_overflow_visible sec = negb collapsed)
      (timeline (setAllCollapsed pg runId collapsed))
  ∧ (λ sec, (sec_episode sec, sec_title sec, sec_nodes sec))
      <$> timeline (setAllCollapsed pg runId collapsed)
    = (λ sec, (sec_episode sec, sec_title sec, sec_nodes sec)) <$> timeline pg.
Proof.
  intros Hnd.
  assert (timeline (setAllCollapsed pg runId collapsed)
          = setExpanded (negb collapsed) <$> timeline pg) as Htl.
  { rewrite setAllCollapsed_eq. cbv zeta. simpl timeline.
    apply (fold_setAllStep_timeline runId collapsed [] (timeline pg)); done. }
  split; [exact Htl|]. rewrite Htl. split.
  - apply Forall_fmap, Forall_forall. intros sec _. simpl.
    by rewrite negb_involutive.
  - rewrite <- list_fmap_compose. by apply list_fmap_ext.
Qed.

End DisplayFacts.

(** ** What rendering and permalinks leave alone *)

Section FrameFacts.

Context {host : Host}.

Lemma retouched_updateSection (ep : Z) (b : bool) (secs : list section) :
  Forall2 (retouched ep b) secs (updateSection ep (setExpanded b) secs).
Proof.
  induction secs as [|sec secs IH]; simpl; [constructor|].
  destruct (Z.eqb_spec (sec_episode sec) ep) as [He|_].
  - constructor; [by right|]. apply Forall2_same_length_lookup_2; [done|].
    intros i x y Hx Hy. left. congruence.
  - constructor; [by left|exact IH].
Qed.

Lemma retouched_refl (ep : Z) (b : bool) (secs : list section) :
  Forall2 (retouched ep b) secs secs.
Proof. induction secs; constructor; [by left|done]. Qed.

(** X4.  Resolving the permalink of the current URL changes nothing of
    the page but the expand/collapse attributes of the sections of one
    episode: sections are neither added, removed nor reordered, their
    episode numbers, titles and cards stay, the message, the episode
    selector, the current run and the location stay, and of the storage
    only the key of the current run may change. *)
Theorem permalink_touches_one_episode (pg : Page) :
  let pg' := handlePermalinkOnLoad pg in
  (∃ (ep : Z) (b : bool),
     Forall2
       (λ sec sec',
          sec' = sec
          ∨ (sec_episode sec = ep
             ∧ sec' = {| sec_episode := sec_episode sec;
                         sec_runKey := sec_runKey sec;
                         sec_title := sec_title sec;
                         banner_expanded := b;
                         contents_collapsed := negb b;
                         contents_hidden := negb b;
                         contents_overflow_visible := b;
                         sec_nodes := sec_nodes sec |}))
       (timeline pg) (timeline pg'))
  ∧ (∀ k, k ≠ COLLAPSED_KEY_PREFIX +:+ currentRunKey pg →
       getItem (localStorage pg') k = getItem (localStorage pg) k)
  ∧ writable (localStorage pg') = writable (localStorage pg)
  ∧ message pg' = message pg
  ∧ episodeSelector pg' = episodeSelector pg
  ∧ CURRENT_RUN_ID pg' = CURRENT_RUN_ID pg
  ∧ location_hash pg' = location_hash pg
  ∧ location_search pg' = location_search pg.
Proof.
  cbv zeta.
  destruct (handlePermalinkOnLoad_cases pg) as [->|(ep & b & ->)].
  - split; [exists 0, true; apply (retouched_refl 0 true)|done].
  - split.
    + exists ep, b. unfold toggleEpisodeSection.
      destruct (querySection ep (timeline pg));
        [apply retouched_updateSection|apply (retouched_refl ep b)].
    + pose proof (storageFrame_toggle pg (currentRunKey pg) ep (Some b))
        as (Hw & Hk & _).
      split; [exact Hk|]. split; [exact Hw|].
      unfold toggleEpisodeSection.
      by destruct (querySection ep (timeline pg)).
Qed.

(** *** The storage *)

Lemma storageFrame_handlePermalinkOnLoad (pg : Page) :
  storageFrame (currentRunKey pg) (localStorage pg)
    (localStorage (handlePermalinkOnLoad pg)).
Proof.
  destruct (handlePermalinkOnLoad_cases pg) as [->|(ep & b & ->)];
    [apply storageFrame_refl|apply storageFrame_toggle].
Qed.

Lemma storageFrame_renderSections (pg : Page) (events : list event) :
  storageFrame (currentRunKey pg) (localStorage pg)
    (localStorage (renderSections pg events)).
Proof.
  destruct (renderSections_resolved pg events) as (-> & _).
  unfold resolveCollapsed.
  destruct (negb _ && negb _); simpl;
    [apply storageFrame_save|apply storageFrame_refl].
Qed.

Lemma currentRunKey_renderSections (pg : Page) (events : list event) :
  currentRunKey (renderSections pg events) = currentRunKey pg.
Proof.
  destruct (renderSections_resolved pg events) as (_ & _ & Hid & _).
  unfold currentRunKey. by rewrite Hid.
Qed.

Lemma storageFrame_renderTimeline (pg : Page) (events : list event) :
  storageFrame (currentRunKey pg) (localStorage pg)
    (localStorage (renderTimeline pg events)).
Proof.
  destruct events as [|ev events]; [apply storageFrame_refl|].
  unfold renderTimeline.
  eapply storageFrame_trans; [apply storageFrame_renderSections|].
  rewrite <- (currentRunKey_renderSections pg (ev :: events)).
  apply storageFrame_handlePermalinkOnLoad.
Qed.

Lemma or_else_default (runId : option string) :
  JSString.or_else (Some (JSString.or_else runId DEFAULT_RUN_ID)) DEFAULT_RUN_ID
  = JSString.or_else runId DEFAULT_RUN_ID.
Proof.
  destruct runId as [s|]; [|reflexivity]. simpl.
  destruct (String.eqb s "") eqn:Hs; [reflexivity|]. by rewrite Hs.
Qed.

(** X5.  Displaying a run reads and writes the storage under the key
    of that run only ([runId], or the default run when it is missing or
    empty): every other key keeps its value, the collapsed sets of the
    other runs are as they were, and nothing at all is written when the
    storage refuses writes or the run has no events to show. *)
Theorem display_leaves_other_runs (pg : Page) (runId : option string)
    (events : list event) :
  let r := JSString.or_else runId DEFAULT_RUN_ID in
  let st := localStorage pg in
  let st' := localStorage (loadAndDisplayRun pg runId events) in
  (∀ k, k ≠ COLLAPSED_KEY_PREFIX +:+ r → getItem st' k = getItem st k)
  ∧ (∀ r', r' ≠ r → loadCollapsedMap st' r' = loadCollapsedMap st r')
  ∧ writable st' = writable st
  ∧ (writable st = false → st' = st)
  ∧ (events = [] → st' = st).
Proof.
  cbv zeta. unfold loadAndDisplayRun.
  set (pg1 := {| localStorage := localStorage pg; timeline := timeline pg;
                 message := message pg; episodeSelector := episodeSelector pg;
                 CURRENT_RUN_ID := Some (JSString.or_else runId DEFAULT_RUN_ID);
                 location_hash := location_hash pg;
                 location_search := location_search pg |}).
  pose proof (storageFrame_renderTimeline pg1 events) as (Hw & Hk & Hro).
  assert (currentRunKey pg1 = JSString.or_else runId DEFAULT_RUN_ID) as Hkey
    by apply or_else_default.
  rewrite Hkey in Hk. change (localStorage pg1) with (localStorage pg) in *.
  split; [exact Hk|]. split; [|split; [exact Hw|split; [exact Hro|]]].
  - intros r' Hr'. apply loadCollapsedMap_ext, Hk.
    intros He. by apply collapsedKey_inj in He.
  - by intros ->.
Qed.

(** *** The episode selector *)




End FrameFacts.

(** ** What the stored set does to the display *)

Section PersistenceFacts.

Context {host : Host}.

Hypothesis JSON_roundtrip :
  ∀ l : list Z,
    JSON_parse (JSON_stringify (JArr ((λ z, JNum (Int z)) <$> l)))
    = Some (JArr ((λ z, JNum (Int z)) <$> l)).
Hypothesis JSON_stringify_array :
  ∀ l : list jsval, JSON_stringify (JArr l) ≠ "".

(** *** A forced toggle *)





Lemma updateSection_others (ep : Z) (w : bool) (secs : list section)
    (sec' : section) :
  sec' ∈ updateSection ep (setExpanded w) secs →
  sec_episode sec' ≠ ep → sec' ∈ secs.
Proof.
  induction secs as [|sec secs IH]; simpl; [done|].
  destruct (Z.eqb_spec (sec_episode sec) ep) as [He|He].
  - intros Hin Hne. apply elem_of_cons in Hin as [->|Hin]; [done|by right].
  - intros Hin Hne. apply elem_of_cons in Hin as [->|Hin]; [by left|].
    right. by apply IH.
Qed.

(** X8.  What one toggle does.  On a page that has a section for the
    episode and whose storage takes writes, [toggleEpisodeSection]
    leaves that section expanded as asked (or the other way round than
    it was, without [expand]) and the episode in the run's stored set
    exactly when the section is now collapsed; every other section is
    as it was, and so is the membership of every other episode.  The
    stored list is taken to hold numbers only. *)
Theorem toggle_syncs_episode (pg : Page) (runId : string) (ep : Z)
    (expand : option bool) (sec : section) :
  querySection ep (timeline pg) = Some sec →
  writable (localStorage pg) = true →
  NaN ∉ loadCollapsedMap (localStorage pg) runId →
  let pg' := toggleEpisodeSection pg runId ep expand in
  let willExpand :=
    match expand with
    | Some b => b
    | None => negb (banner_expanded sec)
    end in
  (∃ sec',
     querySection ep (timeline pg') = Some sec'
     ∧ banner_expanded sec' = willExpand
     ∧ contents_collapsed sec' = negb willExpand
     ∧ contents_hidden sec' = negb willExpand)
  ∧ (Int ep ∈ loadCollapsedMap (localStorage pg') runId ↔ willExpand = false)
  ∧ (∀ ep', ep' ≠ ep →
       (Int ep' ∈ loadCollapsedMap (localStorage pg') runId
        ↔ Int ep' ∈ loadCollapsedMap (localStorage pg) runId))
  ∧ (∀ sec'', sec'' ∈ timeline pg' → sec_episode sec'' ≠ ep →
       sec'' ∈ timeline pg)
  ∧ sec_episode <$> timeline pg' = sec_episode <$> timeline pg.
Proof.
  intros Hq Hw Hnum. cbv zeta.
  rewrite (toggle_found _ _ _ _ _ Hq). cbv zeta.
  change (willExpandFor expand (banner_expanded sec))
    with (match expand with
          | Some b => b
          | None => negb (banner_expanded sec)
          end).
  set (w := match expand with Some b => b | None => _ end).
  simpl timeline. simpl localStorage.
  rewrite (load_save JSON_roundtrip JSON_stringify_array)
    by by apply noteCollapsed_numeric.
  rewrite Hw. split; [|split; [|split; [|split]]].
  - eexists. split; [by apply querySection_updateSection|done].
  - rewrite (elem_of_noteCollapsed JSON_roundtrip JSON_stringify_array).
    by rewrite decide_True.
  - intros ep' Hne.
    rewrite (elem_of_noteCollapsed JSON_roundtrip JSON_stringify_array).
    by rewrite decide_False.
  - apply updateSection_others.
  - apply episodes_updateSection.
Qed.

(** *** Expand all, collapse all: the stored value *)



(** *** Rendering again *)












End PersistenceFacts.

(** ** Permalinks: the query string, repeated parameters, the button *)

Section PermalinkMore.

Context {host : Host}.

Ltac step_append :=
  repeat change (String ?c ?s +:+ ?t) with (String c (s +:+ t));
  repeat change ("" +:+ ?t) with t.

(** *** Parameters of the hash over those of the page *)

Lemma find_filter_other (q k : string) (ps : list (string * string)) :
  q ≠ k →
  List.find (λ p, String.eqb (fst p) q)
    (List.filter (λ p, negb (String.eqb (fst p) k)) ps)
  = List.find (λ p, String.eqb (fst p) q) ps.
Proof.
  intros Hne. induction ps as [|[k' v'] ps IH]; [done|]. simpl.
  destruct (String.eqb_spec k' k) as [->|Hk]; simpl.
  - destruct (String.eqb_spec k q) as [He|_]; [by symmetry in He|exact IH].
  - destruct (String.eqb k' q); [done|exact IH].
Qed.

Lemma params_get_set (q k v : string) (ps : list (string * string)) :
  params_get q (params_set k v ps)
  = if String.eqb q k then Some v else params_get q ps.
Proof.
  unfold params_get. induction ps as [|[k' v'] ps IH]; simpl.
  - rewrite (String.eqb_sym k q). by destruct (String.eqb q k).
  - destruct (String.eqb_spec k' k) as [->|Hk]; simpl.
    + rewrite (String.eqb_sym k q).
      destruct (String.eqb_spec q k) as [->|Hq]; [done|].
      by rewrite find_filter_other.
    + destruct (String.eqb_spec k' q) as [->|Hq]; simpl.
      * destruct (String.eqb_spec q k) as [->|_]; done.
      * exact IH.
Qed.

Lemma params_get_cons (q k v : string) (ps : list (string * string)) :
  params_get q ((k, v) :: ps)
  = if String.eqb q k then Some v else params_get q ps.
Proof.
  unfold params_get. simpl. rewrite (String.eqb_sym k q).
  by destruct (String.eqb q k).
Qed.

Lemma params_get_merge (q : string) (hp sp : list (string * string)) :
  params_get q (fold_left (λ ps '(k, v), params_set k v ps) hp sp)
  = match params_get q (rev hp) with
    | Some v => Some v
    | None => params_get q sp
    end.
Proof.
  induction hp as [|[k v] hp IH] using rev_ind; [done|].
  rewrite fold_left_app, rev_unit. simpl fold_left.
  rewrite params_get_set, IH, params_get_cons.
  by destruct (String.eqb q k).
Qed.

(** X11.  For a hash [#anchor?query], the parameters permalink
    resolution reads are those of the hash over those of the page's
    query string: a parameter the hash gives has the value of its last
    occurrence in the hash, whatever the query string says, and one the
    hash does not give has the value of its first occurrence in the
    query string. *)
Theorem hash_parameters_override (pg : Page) (anchor query k : string) :
  noQuestionMark anchor →
  location_hash pg = "#" +:+ anchor +:+ "?" +:+ query →
  fst (parseHashAnchorAndParams pg) = Some anchor
  ∧ params_get k (snd (parseHashAnchorAndParams pg))
    = match params_get k (rev (URLSearchParams query)) with
      | Some v => Some v
      | None => params_get k (URLSearchParams (location_search pg))
      end.
Proof.
  intros Ha Hhash.
  rewrite (parseHashAnchorAndParams_split pg anchor (Some query));
    [|done|done|exact Hhash].
  split; [done|]. simpl. apply params_get_merge.
Qed.

(** *** The query string *)

(** X12.  When the hash names no episode, permalink resolution reads
    the page's query string: with [episode=N] for an integer [N] that
    has a section, the section ends collapsed if [spoiler] of the query
    string is exactly ["0"] and expanded otherwise; without a usable
    [episode] (none, empty, not a number) the page stays as it is. *)
Theorem query_permalink_resolution (pg : Page) :
  fst (parseHashAnchorAndParams pg) ≫= matchEpisodeAnchor = None →
  let q := URLSearchParams (location_search pg) in
  let expand := negb (bool_decide (params_get "spoiler" q = Some "0")) in
  (∀ (epi : string) (ep : Z) (sec : section),
     params_get "episode" q = Some epi → epi ≠ "" →
     StringToNumber epi = Int ep →
     querySection ep (timeline pg) = Some sec →
     handlePermalinkOnLoad pg
     = toggleEpisodeSection pg (currentRunKey pg) ep (Some expand)
     ∧ ∃ sec',
         querySection ep (timeline (handlePermalinkOnLoad pg)) = Some sec'
         ∧ banner_expanded sec' = expand
         ∧ contents_collapsed sec' = negb expand
         ∧ contents_hidden sec' = negb expand)
  ∧ (params_get "episode" q = None ∨ params_get "episode" q = Some ""
     ∨ (∃ epi, params_get "episode" q = Some epi ∧ StringToNumber epi = NaN) →
     handlePermalinkOnLoad pg = pg).
Proof.
  intros Hanchor. cbv zeta. unfold handlePermalinkOnLoad.
  destruct (parseHashAnchorAndParams pg) as [anchor params].
  simpl in Hanchor. rewrite Hanchor. split.
  - intros epi ep sec Hepi Hne Hnum Hq. rewrite Hepi.
    rewrite truthy_Some. apply String.eqb_neq in Hne. rewrite Hne.
    simpl negb. cbv iota. simpl default. rewrite Hnum.
    split; [reflexivity|].
    rewrite (toggle_found _ _ _ _ _ Hq). cbv zeta. simpl.
    eexists. split; [by apply querySection_updateSection|done].
  - intros [->|[->|(epi & -> & Hnan)]]; [done..|].
    destruct (JSString.truthy (Some epi)); [|done].
    simpl default. by rewrite Hnan.
Qed.

(** *** The link of the permalink button *)

Lemma append_assoc (a b c : string) : (a +:+ b) +:+ c = a +:+ (b +:+ c).
Proof. induction a as [|x a IH]; step_append; congruence. Qed.

Lemma string_of_list_ascii_app (a b : list ascii) :
  string_of_list_ascii (a ++ b)
  = string_of_list_ascii a +:+ string_of_list_ascii b.
Proof. induction a as [|x a IH]; simpl; step_append; congruence. Qed.

Lemma pretty_N_char_digit (n : N) :
  JSString.is_digit (pretty_N_char n) = true.
Proof.
  destruct n as [|p]; [done|]. do 4 (try destruct p as [p|p|]); reflexivity.
Qed.

Lemma pretty_N_char_value (n : N) :
  (n < 10)%N → Z.of_N (JSString.code (pretty_N_char n)) - 48 = Z.of_N n.
Proof.
  intros Hn.
  assert (n = 0 ∨ n = 1 ∨ n = 2 ∨ n = 3 ∨ n = 4 ∨ n = 5 ∨ n = 6 ∨ n = 7
          ∨ n = 8 ∨ n = 9)%N as H by lia.
  repeat destruct H as [->|H]; try subst n; reflexivity.
Qed.

Lemma pretty_N_go_digits (x : N) :
  ∃ d : list ascii,
    (∀ s, pretty_N_go x s = string_of_list_ascii d +:+ s)
    ∧ Forall (λ c, JSString.is_digit c = true) d
    ∧ digitsValue d = Z.of_N x
    ∧ ((0 < x)%N → d ≠ []).
Proof.
  induction x as [x IH] using (well_founded_induction N.lt_wf_0).
  destruct (decide (0 < x)%N) as [Hx|Hx].
  - destruct (IH (x `div` 10)%N) as (d & Hd & Hdig & Hval & _).
    { apply N.div_lt; lia. }
    exists (d ++ [pretty_N_char (x `mod` 10)]). split; [|split; [|split]].
    + intros s. rewrite pretty_N_go_step, Hd by done.
      rewrite string_of_list_ascii_app, append_assoc. by step_append.
    + apply Forall_app. split; [done|].
      repeat constructor. apply pretty_N_char_digit.
    + unfold digitsValue in *. rewrite fold_left_app. simpl. rewrite Hval.
      rewrite pretty_N_char_value by (apply N.mod_lt; lia).
      pose proof (N.div_mod x 10). lia.
    + intros _. by destruct d.
  - assert (x = 0%N) as -> by lia. exists []. split; [|split; [|split]].
    + intros s. by rewrite pretty_N_go_0.
    + constructor.
    + reflexivity.
    + lia.
Qed.

(** The decimal text of a natural episode number is a non-empty string
    of digits of that value. *)
Lemma pretty_digits (ep : Z) :
  0 ≤ ep →
  ∃ d : list ascii,
    pretty ep = string_of_list_ascii d
    ∧ d ≠ []
    ∧ Forall (λ c, JSString.is_digit c = true) d
    ∧ digitsValue d = ep.
Proof.
  intros Hep. destruct ep as [|p|p]; [|clear Hep|lia].
  - exists ["0"%char]. split; [done|]. split; [done|].
    split; [by repeat constructor|done].
  - destruct (pretty_N_go_digits (N.pos p)) as (d & Hd & Hdig & Hval & Hne).
    exists d. split; [|split; [by apply Hne|split; [done|]]].
    + change (pretty (Z.pos p)) with (pretty_N_go (N.pos p) "").
      by rewrite Hd, append_empty_r.
    + by rewrite Hval.
Qed.

Lemma urlFragment_base (base rest : string) :
  noHash base → rest ≠ "" →
  urlFragment (base +:+ "#" +:+ rest) = "#" +:+ rest.
Proof.
  unfold noHash. intros Hbase Hrest.
  induction base as [|c base IH]; step_append; simpl.
  - apply String.eqb_neq in Hrest. by rewrite Hrest.
  - apply Forall_cons in Hbase as [Hc Hbase].
    destruct (Ascii.eqb_spec c "#"); [done|]. by apply IH.
Qed.

Lemma handlePermalinkOnLoad_anchor (pg : Page) (digits : list ascii)
    (hashQuery : option string) :
  digits ≠ [] →
  Forall (λ c, JSString.is_digit c = true) digits →
  location_hash pg =
    "#episode-" +:+ string_of_list_ascii digits
    +:+ match hashQuery with Some q => "?" +:+ q | None => "" end →
  handlePermalinkOnLoad pg
  = toggleEpisodeSection pg (currentRunKey pg) (digitsValue digits)
      (Some (shouldExpandFor
               (params_get "spoiler" (mergedParams pg hashQuery)))).
Proof.
  intros Hne Hdigits Hhash. unfold handlePermalinkOnLoad.
  rewrite (parseHashAnchorAndParams_split pg
             ("episode-" +:+ string_of_list_ascii digits) hashQuery);
    [|by apply digits_noQuestionMark|done|].
  2:{ rewrite Hhash. by destruct hashQuery. }
  simpl mbind. unfold mbind, option_bind.
  by rewrite matchEpisodeAnchor_digits.
Qed.

(** X13.  The links the permalink button copies come back to their
    section.  On a page opened at the link copied with Shift held
    ([#episode-N?spoiler=0]), permalink resolution leaves the section of
    episode [N] collapsed; at the link copied without Shift
    ([#episode-N]) it leaves it expanded, unless the query string the
    link carries over has [spoiler=0].  [N] is a natural number, [base]
    holds no ["#"], and the host reads the query ["spoiler=0"] as the
    one parameter it spells. *)
Theorem permalink_round_trip (pg : Page) (base : string) (ep : Z)
    (shiftKey : bool) (sec : section) :
  0 ≤ ep →
  noHash base →
  URLSearchParams "spoiler=0" = [("spoiler", "0")] →
  location_hash pg = urlFragment (permalinkUrl base ep shiftKey) →
  querySection ep (timeline pg) = Some sec →
  location_hash pg
  = "#episode-" +:+ pretty ep +:+ (if shiftKey then "?spoiler=0" else "")
  ∧ ∃ sec',
      querySection ep (timeline (handlePermalinkOnLoad pg)) = Some sec'
      ∧ banner_expanded sec'
        = (if shiftKey then false
           else negb (bool_decide
                        (params_get "spoiler"
                           (URLSearchParams (location_search pg))
                         = Some "0")))
      ∧ contents_collapsed sec' = negb (banner_expanded sec')
      ∧ contents_hidden sec' = negb (banner_expanded sec').
Proof.
  intros Hep Hbase Hhost Hhash Hq.
  destruct (pretty_digits ep Hep) as (d & Hd & Hne & Hdig & Hval).
  assert (location_hash pg
          = "#episode-" +:+ pretty ep
            +:+ (if shiftKey then "?spoiler=0" else "")) as Hhash'.
  { rewrite Hhash. unfold permalinkUrl. cbv zeta.
    destruct shiftKey.
    - rewrite urlFragment_base; [by step_append|done|by step_append].
    - rewrite urlFragment_base; [|done|by step_append].
      step_append. by rewrite append_empty_r. }
  split; [exact Hhash'|].
  rewrite (handlePermalinkOnLoad_anchor pg d
             (if shiftKey then Some "spoiler=0" else None)); [|done|done|].
  2:{ rewrite Hhash', Hd. by destruct shiftKey. }
  rewrite Hval, (toggle_found _ _ _ _ _ Hq). cbv zeta. simpl.
  eexists. split; [by apply querySection_updateSection|]. simpl.
  split; [|done].
  destruct shiftKey; unfold mergedParams, shouldExpandFor; [|done].
  rewrite Hhost. cbn [fold_left]. by rewrite params_get_set.
Qed.


End PermalinkMore.

(** ** Event cards *)

Section CardFacts.

Context {host : Host}.

Ltac step_append :=
  repeat change (String ?c ?s +:+ ?t) with (String c (s +:+ t));
  repeat change ("" +:+ ?t) with t.

Lemma or_else_nonempty (o : option string) (d : string) :
  d ≠ "" → JSString.or_else o d ≠ "".
Proof.
  intros Hd. unfold JSString.or_else. destruct o as [s|]; [|done].
  by destruct (String.eqb_spec s "").
Qed.

Lemma or_else_Some (s d : string) :
  JSString.or_else (Some s) d = if String.eqb s "" then d else s.
Proof. done. Qed.

Lemma renderEvent_card (ev : event) (el : eventElement) :
  renderEvent ev = EventCard el →
  el = markSpecialEvent ev (createEventElement ev) "Luc".
Proof.
  unfold renderEvent. destruct (isRunEnd ev); [done|]. by intros [= <-].
Qed.

Lemma type_class_other (type token : string) :
  String.prefix "type-" token = false → "type-" +:+ type ≠ token.
Proof. intros Hp <-. by rewrite prefix_append in Hp. Qed.

Lemma plain_classes (ev : event) (token : string) :
  String.prefix "type-" token = false →
  token ∈ el_classes (createEventElement ev) ↔
  token = "event"
  ∨ token = (if bool_decide (ev_side ev = Some "right") then "right" else "left")
  ∨ (token = "fainted" ∧ typeOf ev = "fainted")
  ∨ (token = "failed" ∧ isFailed ev = true)
  ∨ (token = "illegal" ∧ isFailed ev = false ∧ isIllegal ev = true).
Proof.
  intros Hp. unfold createEventElement. cbv zeta. simpl el_classes.
  fold (isFailed ev) (isIllegal ev).
  pose proof (type_class_other (typeOf ev) token Hp) as Hty.
  repeat (rewrite elem_of_cons || rewrite elem_of_app).
  destruct (String.eqb (typeOf ev) "");
    destruct (String.eqb_spec (typeOf ev) "fainted");
    destruct (isFailed ev); destruct (isIllegal ev);
    rewrite ?elem_of_cons, ?elem_of_nil; naive_solver.
Qed.

Lemma marked_classes (ev : event) (el : eventElement) (h token : string) :
  token ∈ el_classes (markSpecialEvent ev el h)
  ↔ token ∈ el_classes el ∨ (token = "special" ∧ ev_special ev ≠ None).
Proof.
  unfold markSpecialEvent. destruct (ev_special ev); cbn [el_classes];
    [rewrite elem_of_app, list_elem_of_singleton|]; naive_solver.
Qed.

Lemma special_class (ev : event) :
  "special" ∈ el_classes (markSpecialEvent ev (createEventElement ev) "Luc")
  ↔ ev_special ev ≠ None.
Proof.
  rewrite marked_classes, plain_classes by done.
  destruct (bool_decide _); naive_solver.
Qed.

(** X15.  The ribbon of an event card.  For an event whose [special]
    is [true], a string or an object, the card carries the class
    [special] and the ribbon is the label [special] spells out or, when
    it spells none, the nickname or ["Named after Luc"]; it replaces the
    ribbon of a failed or illegal encounter.  Any other card shows
    ["Failed Encounter"] when the encounter failed, else
    ["Illegal Encounter"] when it was illegal, else no ribbon.  A ribbon
    is never the empty text. *)
Theorem card_ribbon (ev : event) (el : eventElement) :
  classToken (typeOf ev) →
  renderEvent ev = EventCard el →
  el_ribbon el ≠ Some ""
  ∧ match ev_special ev with
    | Some sp =>
        let label :=
          if String.eqb (givenLabel sp) ""
          then JSString.or_else (ev_nickname ev) "Named after Luc"
          else givenLabel sp in
        el_ribbon el = Some label
        ∧ el_aria_label el = Some (label +:+ " — special event")
        ∧ "special" ∈ el_classes el
    | None =>
        el_ribbon el
        = (if ev_failed ev || String.eqb (typeOf ev) "failed"
           then Some "Failed Encounter"
           else if ev_illegal ev || String.eqb (typeOf ev) "illegal"
                then Some "Illegal Encounter"
                else None)
        ∧ el_aria_label el = None
        ∧ "special" ∉ el_classes el
    end.
Proof.
  intros _ Hel. apply renderEvent_card in Hel as ->.
  assert (JSString.or_else (ev_nickname ev) "Named after Luc" ≠ "") as Hfb
    by by apply or_else_nonempty.
  pose proof (special_class ev) as Hcls.
  set (cls := el_classes _) in *.
  unfold markSpecialEvent.
  change ("Named after " +:+ "Luc") with "Named after Luc".
  destruct (ev_special ev) as [sp|] eqn:Hsp.
  - cbv zeta. cbn [el_ribbon el_aria_label].
    assert (JSString.or_else
              match sp with
              | SpecialTrue =>
                  Some (JSString.or_else (ev_nickname ev) "Named after Luc")
              | SpecialString l => Some l
              | SpecialObject l => if JSString.truthy l then l else None
              end (JSString.or_else (ev_nickname ev) "Named after Luc")
            = if String.eqb (givenLabel sp) ""
              then JSString.or_else (ev_nickname ev) "Named after Luc"
              else givenLabel sp) as ->.
    { destruct sp as [|l|[l|]]; simpl; try done.
      - apply String.eqb_neq in Hfb. by rewrite Hfb.
      - destruct (String.eqb l "") eqn:Hl; simpl; [done|]. by rewrite Hl. }
    split; [|split; [done|split; [done|]]].
    + intros [= He]. destruct (String.eqb_spec (givenLabel sp) ""); done.
    + by apply Hcls.
  - split; [|split; [|split; [done|]]].
    + unfold createEventElement. simpl.
      by repeat (destruct (_ && _)).
    + unfold createEventElement. simpl. rewrite Hsp. simpl.
      rewrite !andb_true_r. done.
    + intros H. by apply Hcls in H.
Qed.

(** X16.  The classes of an event card.  The list starts with [event]
    and the side, [right] only for [side = "right"] and [left]
    otherwise; it holds [fainted] exactly for the type [fainted] in any
    letter case, [failed] exactly for a failed encounter, [illegal]
    exactly for an illegal encounter that did not fail, so never both,
    and [special] exactly when [special] is [true], a string or an
    object. *)
Theorem card_classes (ev : event) (el : eventElement) :
  classToken (typeOf ev) →
  renderEvent ev = EventCard el →
  let failed := ev_failed ev || String.eqb (typeOf ev) "failed" in
  let illegal := ev_illegal ev || String.eqb (typeOf ev) "illegal" in
  (∃ rest,
     el_classes el =
     "event"
     :: (if bool_decide (ev_side ev = Some "right") then "right" else "left")
     :: rest)
  ∧ ("right" ∈ el_classes el ↔ ev_side ev = Some "right")
  ∧ ("left" ∈ el_classes el ↔ ev_side ev ≠ Some "right")
  ∧ ("fainted" ∈ el_classes el ↔
     JSString.toLowerCase (JSString.or_else (ev_type ev) "") = "fainted")
  ∧ ("failed" ∈ el_classes el ↔ failed = true)
  ∧ ("illegal" ∈ el_classes el ↔ failed = false ∧ illegal = true)
  ∧ ("special" ∈ el_classes el ↔ ev_special ev ≠ None).
Proof.
  intros _ Hel. apply renderEvent_card in Hel as ->. cbv zeta.
  fold (typeOf ev) (isFailed ev) (isIllegal ev).
  split.
  { unfold markSpecialEvent, createEventElement.
    destruct (ev_special ev); simpl; eauto. }
  rewrite !marked_classes, !plain_classes by done.
  destruct (bool_decide_reflect (ev_side ev = Some "right"));
    repeat split; naive_solver.
Qed.

Lemma upper_not_lower (c : ascii) :
  JSString.is_lower c = true →
  JSString.is_lower (ascii_of_N (JSString.code c - 32)) = false.
Proof.
  destruct c as [b0 b1 b2 b3 b4 b5 b6 b7].
  destruct b0, b1, b2, b3, b4, b5, b6, b7; done.
Qed.

Lemma capitalize_head (s : string) :
  s ≠ "" →
  match capitalize s with
  | String c _ => JSString.is_lower c = false
  | EmptyString => False
  end.
Proof.
  destruct s as [|c s]; [done|]. intros _. simpl.
  destruct (JSString.is_lower c) eqn:Hc; [by apply upper_not_lower|done].
Qed.

(** X17.  The header of an event card is never empty and never starts
    with a lower-case letter: it is one of the fixed texts for the
    types [caught], [fainted], [evolved], [evolution] and [badge], the
    capitalised type for any other type, and ["Event"] without a type;
    marking the card special leaves it as it is. *)
Theorem card_header (ev : event) (el : eventElement) :
  classToken (typeOf ev) →
  renderEvent ev = EventCard el →
  el_header el = el_header (createEventElement ev)
  ∧ match el_header el with
    | String c _ => JSString.is_lower c = false
    | EmptyString => False
    end
  ∧ (typeOf ev ∉ ["caught"; "fainted"; "evolved"; "evolution"; "badge"] →
     el_header el =
     match ev_type ev with
     | Some t => if String.eqb t "" then "Event" else capitalize t
     | None => "Event"
     end).
Proof.
  intros _ Hel. apply renderEvent_card in Hel as ->.
  assert (el_header (markSpecialEvent ev (createEventElement ev) "Luc")
          = el_header (createEventElement ev)) as ->.
  { unfold markSpecialEvent. by destruct (ev_special ev). }
  split; [done|]. unfold createEventElement. cbv zeta. simpl el_header.
  unfold withLevel. split.
  - destruct (String.eqb (typeOf ev) "caught").
    { destruct (_ || _), (levelTruthy _); by step_append. }
    destruct (String.eqb (typeOf ev) "fainted"); [done|].
    destruct (_ || _). { destruct (levelTruthy _); by step_append. }
    destruct (String.eqb (typeOf ev) "badge"); [done|].
    destruct (ev_type ev) as [t|]; [|done]. rewrite truthy_Some. simpl.
    destruct (String.eqb_spec t ""); [done|]. by apply capitalize_head.
  - rewrite !not_elem_of_cons. intros (H1 & H2 & H3 & H4 & H5 & _).
    apply String.eqb_neq in H1, H2, H3, H4, H5.
    rewrite H1, H2, H3, H4, H5. simpl.
    destruct (ev_type ev) as [t|]; [|done]. rewrite truthy_Some. simpl.
    by destruct (String.eqb t "").
Qed.

End CardFacts.

(** ** Forgetting a run's collapsed set *)

Section ClearFacts.

Context {host : Host}.


End ClearFacts.

(** ** The filter and the search *)

Section FilterFacts.

Context {host : Host}.

Ltac step_append :=
  repeat change (String ?c ?s +:+ ?t) with (String c (s +:+ t));
  repeat change ("" +:+ ?t) with t.

Ltac step_append_in H :=
  repeat (progress change (String ?c ?s +:+ ?t) with (String c (s +:+ t)) in H);
  repeat (progress change ("" +:+ ?t) with t in H).

(** *** Substrings *)

Lemma startsWith_spec (s q : string) :
  JSText.startsWith s q = true ↔ ∃ b, s = q +:+ b.
Proof.
  revert s. induction q as [|a q IH]; intros s; simpl.
  - split; [intros _; by exists s|done].
  - destruct s as [|c s].
    + split; [done|]. intros [b Hb]. by step_append_in Hb.
    + rewrite andb_true_iff, IH. split.
      * intros [Hac [b ->]]. apply Ascii.eqb_eq in Hac as ->.
        exists b. by step_append.
      * intros [b Hb]. step_append_in Hb. injection Hb as -> ->.
        split; [apply Ascii.eqb_refl|by exists b].
Qed.

Lemma includes_unfold (s q : string) :
  JSText.includes s q =
  JSText.startsWith s q
  || match s with
     | String _ s' => JSText.includes s' q
     | EmptyString => false
     end.
Proof. by destruct s. Qed.

Lemma includes_spec (s q : string) :
  JSText.includes s q = true ↔ ∃ a b, s = a +:+ (q +:+ b).
Proof.
  split.
  - induction s as [|c s IH]; rewrite includes_unfold, orb_true_iff.
    + intros [H|H]; [|done]. apply startsWith_spec in H as [b ->].
      by exists "", b.
    + intros [H|H].
      * apply startsWith_spec in H as [b ->]. by exists "", b.
      * destruct (IH H) as (a & b & ->). by exists (String c a), b.
  - intros (a & b & ->). induction a as [|c a IH]; step_append.
    + rewrite includes_unfold, orb_true_iff. left.
      apply startsWith_spec. by exists b.
    + rewrite includes_unfold, orb_true_iff. by right.
Qed.

Lemma includes_trans (s q q' : string) :
  JSText.includes s q = true → JSText.includes q q' = true →
  JSText.includes s q' = true.
Proof.
  rewrite !includes_spec. intros (a & b & ->) (a' & b' & ->).
  exists (a +:+ a'), (b' +:+ b). by rewrite !append_assoc.
Qed.

Lemma includes_empty (q : string) :
  JSText.includes "" q = true → q = "".
Proof.
  rewrite includes_spec. intros (a & b & H).
  destruct a; [|done]. step_append_in H. by destruct q.
Qed.

(** *** The selection is a filter *)

Lemma filter_all {A : Type} (l : list A) : List.filter (λ _, true) l = l.
Proof. induction l as [|x l IH]; simpl; congruence. Qed.

Lemma filter_filter {A : Type} (f g : A → bool) (l : list A) :
  List.filter g (List.filter f l) = List.filter (λ x, f x && g x) l.
Proof.
  induction l as [|x l IH]; [done|]. simpl.
  destruct (f x); simpl; [destruct (g x)|]; by rewrite IH.
Qed.

Lemma filter_ext_bool {A : Type} (f g : A → bool) (l : list A) :
  (∀ x, f x = g x) → List.filter f l = List.filter g l.
Proof.
  intros H. induction l as [|x l IH]; [done|]. simpl. by rewrite H, IH.
Qed.

Lemma or_else_all_truthy (filterValue : option string) :
  JSString.truthy (Some (JSString.or_else filterValue "all")) = true.
Proof.
  rewrite truthy_Some. destruct filterValue as [s|]; [|done]. simpl.
  by destruct (String.eqb s "") eqn:Hs; [|rewrite Hs].
Qed.

Lemma selectEvents_filter (filterValue searchValue : option string)
    (allEvents : list entry) :
  selectEvents filterValue searchValue allEvents
  = List.filter (selected filterValue searchValue) allEvents.
Proof.
  unfold selectEvents, selected. cbv zeta.
  rewrite or_else_all_truthy. fold (searchText searchValue).
  rewrite truthy_Some. simpl andb.
  set (filterType := JSString.or_else filterValue "all").
  set (q := searchText searchValue).
  destruct (String.eqb filterType "all"), (String.eqb q ""); simpl.
  - by rewrite filter_all.
  - done.
  - apply filter_ext_bool. intros e. by rewrite andb_true_r.
  - by rewrite filter_filter.
Qed.



Lemma sublist_filter_impl {A : Type} (f g : A → bool) (l : list A) :
  (∀ x, f x = true → g x = true) →
  sublist (List.filter f l) (List.filter g l).
Proof.
  intros H. induction l as [|x l IH]; simpl; [constructor|].
  destruct (f x) eqn:Hf.
  - rewrite (H x Hf). by constructor.
  - destruct (g x); [by constructor|done].
Qed.

Lemma matchesSearch_narrow (q q' : string) (e : entry) :
  JSText.includes q q' = true →
  matchesSearch q e = true → matchesSearch q' e = true.
Proof.
  intros Hq. unfold matchesSearch. cbv zeta. rewrite !orb_true_iff.
  intros [[[[[H|H]|H]|H]|H]|H];
    [do 5 left|do 4 left; right|do 3 left; right|do 2 left; right
    |left; right|right];
    exact (includes_trans _ _ _ H Hq).
Qed.

(** X20.  A longer search never shows more.  When the search text,
    trimmed and lower-cased, contains the trimmed, lower-cased text of
    another search, the events it selects under a filter are among the
    events the other search selects under that filter, in the same
    order. *)
Theorem search_narrows (filterValue searchValue searchValue' : option string)
    (allEvents : list entry) :
  JSText.includes
    (JSString.toLowerCase (JSString.trim (JSString.or_else searchValue "")))
    (JSString.toLowerCase (JSString.trim (JSString.or_else searchValue' "")))
  = true →
  sublist (selectEvents filterValue searchValue allEvents)
    (selectEvents filterValue searchValue' allEvents).
Proof.
  fold (searchText searchValue) (searchText searchValue'). intros Hq.
  rewrite !selectEvents_filter. apply sublist_filter_impl. intros e.
  unfold selected. cbv zeta. rewrite !andb_true_iff, !orb_true_iff.
  intros [Hf Hs]. split; [exact Hf|].
  destruct (String.eqb_spec (searchText searchValue') ""); [by left|right].
  destruct Hs as [Hs|Hs].
  - apply String.eqb_eq in Hs. rewrite Hs in Hq.
    by apply includes_empty in Hq.
  - by eapply matchesSearch_narrow.
Qed.

End FilterFacts.

(** ** The filtered view within the full view *)

Section SubviewFacts.

Context {host : Host}.

(** *** Sorting a selection *)






(** *** Groups of a part of the events *)








(** *** Events already in order *)




Section Collation.

Hypothesis localeCompare_total :
  ∀ a b : string, localeCompare a b ≤ 0 ∨ localeCompare b a ≤ 0.
Hypothesis localeCompare_trans :
  ∀ a b c : string,
    localeCompare a b ≤ 0 → localeCompare b c ≤ 0 → localeCompare a c ≤ 0.




End Collation.

End SubviewFacts.

(** ** Images and run details *)

Section ImageFacts.

Variable encodeURIComponent : string → string.

Ltac step_append :=
  repeat change (String ?c ?s +:+ ?t) with (String c (s +:+ t));
  repeat change ("" +:+ ?t) with t.

(** *** The short label *)






(** *** One image *)

Lemma placeholder_prefix (imgEl : img) (label : option string) :
  ∃ src, img_src (setSvgPlaceholder encodeURIComponent imgEl label) = Some src
         ∧ String.prefix "data:image/svg+xml;utf8," src = true.
Proof. eexists. split; [reflexivity|apply prefix_append]. Qed.


(** *** The images of a card *)





(** *** Run details *)





End ImageFacts.

(** ** The runs list and the rules panel *)

Lemma initialRun_cases (runParam : option string) (runs : list run) :
  initialRun runParam runs = DEFAULT_RUN_ID
  ∨ initialRun runParam runs ∈ run_id <$> runs.
Proof.
  unfold initialRun, chooseInitialRun.
  destruct (JSString.truthy runParam) eqn:Hp; [|by left].
  destruct (List.find _ runs) as [r|] eqn:Hfind; [|by left].
  apply find_some in Hfind as [Hin Heq]. apply String.eqb_eq in Heq.
  right. simpl. rewrite or_chain_found.
  - apply list_elem_of_fmap. exists r. split; [done|by apply list_elem_of_In].
  - rewrite Heq. destruct runParam as [p|]; [|done]. simpl in *.
    apply negb_true_iff in Hp. by apply String.eqb_neq.
Qed.

(** X26.  [loadRunsList] never answers an empty list: when the index
    could not be fetched, has no array of runs or an empty one, it
    answers the single default run ["run-02"], titled ["Run 1"], and
    otherwise the runs of the index as they are.  The run selector then
    has one option per run, valued by the run's id; the initial run is
    among these options whenever the default run is, in particular
    whenever the index could not be used. *)
Theorem runs_list_offers_initial_run (idx : option runIndex)
    (runParam : option string) :
  let runs := loadRunsList idx in
  runs ≠ []
  ∧ fst <$> populateRunSelector runs = run_id <$> runs
  ∧ (∀ listed, idx ≫= idx_runs = Some listed → listed ≠ [] → runs = listed)
  ∧ (idx ≫= idx_runs = None ∨ idx ≫= idx_runs = Some [] →
     populateRunSelector runs = [("run-02", "Run 1")]
     ∧ initialRun runParam runs = "run-02")
  ∧ (DEFAULT_RUN_ID ∈ run_id <$> runs →
     initialRun runParam runs ∈ fst <$> populateRunSelector runs).
Proof.
  cbv zeta.
  assert (fst <$> populateRunSelector (loadRunsList idx)
          = run_id <$> loadRunsList idx) as Hsel.
  { unfold populateRunSelector. rewrite <- list_fmap_compose.
    by apply list_fmap_ext. }
  split; [|split; [exact Hsel|split; [|split]]].
  - unfold loadRunsList. destruct (idx ≫= idx_runs) as [[|r rs]|]; done.
  - intros listed Hl Hne. unfold loadRunsList. rewrite Hl.
    by destruct listed.
  - intros H.
    assert (loadRunsList idx
            = [{| run_id := DEFAULT_RUN_ID; run_title := Some "Run 1" |}])
      as ->.
    { unfold loadRunsList. by destruct H as [->| ->]. }
    split; [done|].
    destruct (initialRun_cases runParam
                [{| run_id := DEFAULT_RUN_ID; run_title := Some "Run 1" |}])
      as [H'|H']; [done|].
    by apply list_elem_of_singleton in H'.
  - intros Hdef. rewrite Hsel.
    by destruct (initialRun_cases runParam (loadRunsList idx)) as [->|H'].
Qed.

Lemma inSync_decisive (p : RulesPanel) (e : rulesEvent) :
  e ∈ [ClickToggle; ClickClose; KeyEscape] → inSync (rulesStep p e).
Proof.
  intros He. unfold inSync, rulesStep.
  destruct e; try (by destruct (panel_hidden p)).
  all: exfalso; repeat (apply elem_of_cons in He as [He|He]; [done|]);
    by apply elem_of_nil in He.
Qed.

Lemma inSync_step (p : RulesPanel) (e : rulesEvent) :
  inSync p → inSync (rulesStep p e).
Proof.
  unfold inSync, rulesStep. intros H.
  destruct e; destruct (panel_hidden p) eqn:Hp; simpl; try done;
    by rewrite ?Hp.
Qed.

(** X27.  The rules toggle tells what the rules panel does.  After any
    events that include a click on the toggle, a click on the close
    button or the Escape key (or from a page whose toggle already
    agreed with its panel), [aria-expanded] of the toggle is ["true"]
    exactly when the panel is shown.  Escape, the close button and a
    click outside leave the panel hidden; a click inside the panel and
    other keys change nothing; two clicks on the toggle leave the panel
    as it was. *)
Theorem rules_panel_in_sync (p : RulesPanel) (events : list rulesEvent) :
  (inSync p ∨ ∃ e, e ∈ events ∧ e ∈ [ClickToggle; ClickClose; KeyEscape]) →
  let p' := fold_left rulesStep events p in
  toggle_aria_expanded p' = (if panel_hidden p' then "false" else "true")
  ∧ panel_hidden (rulesStep p' KeyEscape) = true
  ∧ panel_hidden (rulesStep p' ClickClose) = true
  ∧ panel_hidden (rulesStep p' ClickElsewhere) = true
  ∧ rulesStep p' ClickInPanel = p'
  ∧ rulesStep p' KeyOther = p'
  ∧ panel_hidden (rulesStep (rulesStep p' ClickToggle) ClickToggle)
    = panel_hidden p'.
Proof.
  intros H. cbv zeta. split.
  - change (inSync (fold_left rulesStep events p)).
    induction events as [|e events IH] using rev_ind.
    + destruct H as [H|(e & He & _)]; [done|by apply elem_of_nil in He].
    + rewrite fold_left_app. simpl.
      destruct (decide (e ∈ [ClickToggle; ClickClose; KeyEscape]))
        as [He|He]; [by apply inSync_decisive|].
      apply inSync_step, IH. destruct H as [H|(e' & He' & Hd)]; [by left|].
      right. exists e'. split; [|done].
      apply elem_of_app in He' as [He'|He']; [done|].
      apply list_elem_of_singleton in He' as ->. done.
  - set (p' := fold_left rulesStep events p).
    unfold rulesStep. destruct p' as [[] aria]; simpl; done.
Qed.

(** ** The further theorems at work on the sample data *)

Section MoreWitnesses.

#[local] Existing Instance SimpleHost.host.

Lemma setAllCollapsed_display_witness :
  let pg := renderTimeline Sample.blank Sample.events in
  NoDup (sec_episode <$> timeline pg)
  ∧ Forall
      (λ sec,
         banner_expanded sec = false
         ∧ contents_collapsed sec = true
         ∧ contents_hidden sec = true
         ∧ contents_overflow_visible sec = false)
      (timeline (setAllCollapsed pg "run-01" true))
  ∧ timeline (setAllCollapsed pg "run-09" false)
    = setExpanded true <$> timeline pg.
Proof.
  intros pg.
  assert (NoDup (sec_episode <$> timeline pg)) as Hnd.
  { apply (bool_decide_unpack _). vm_compute. exact I. }
  split; [exact Hnd|]. split.
  - exact (proj1 (proj2 (setAllCollapsed_display (host := SimpleHost.host)
                           pg "run-01" true Hnd))).
  - exact (proj1 (setAllCollapsed_display (host := SimpleHost.host)
                    pg "run-09" false Hnd)).
Defined.




Lemma hash_parameters_override_witness :
  let pg :=
    Sample.pageWith Sample.emptyStorage "#episode-5?spoiler=0&spoiler=1"
      "?spoiler=0&run=run-01" in
  noQuestionMark "episode-5"
  ∧ params_get "spoiler" (snd (parseHashAnchorAndParams pg)) = Some "1"
  ∧ params_get "run" (snd (parseHashAnchorAndParams pg)) = Some "run-01".
Proof.
  intros pg.
  assert (noQuestionMark "episode-5") as Ha by (repeat constructor; done).
  split; [exact Ha|]. split.
  - rewrite (proj2 (hash_parameters_override (host := SimpleHost.host)
                      pg "episode-5" "spoiler=0&spoiler=1" "spoiler"
                      Ha eq_refl)).
    reflexivity.
  - rewrite (proj2 (hash_parameters_override (host := SimpleHost.host)
                      pg "episode-5" "spoiler=0&spoiler=1" "run"
                      Ha eq_refl)).
    reflexivity.
Defined.

Lemma query_permalink_resolution_witness :
  let pg := Cases.opened "" "?episode=3&spoiler=0" in
  fst (parseHashAnchorAndParams pg) ≫= matchEpisodeAnchor = None
  ∧ (∃ sec',
       querySection 3 (timeline (handlePermalinkOnLoad pg)) = Some sec'
       ∧ banner_expanded sec' = false)
  ∧ handlePermalinkOnLoad (Cases.opened "#top" "?episode=three") 
    = Cases.opened "#top" "?episode=three".
Proof.
  intros pg. split; [reflexivity|]. split.
  - destruct (querySection 3 (timeline pg)) as [sec|] eqn:Hq;
      [|vm_compute in Hq; discriminate Hq].
    destruct (proj1 (query_permalink_resolution (host := SimpleHost.host)
                       pg eq_refl) "3" 3 sec)
      as (_ & sec' & Hq' & Hb & _);
      [reflexivity|discriminate|reflexivity|exact Hq|].
    exists sec'. split; [exact Hq'|exact Hb].
  - apply (proj2 (query_permalink_resolution (host := SimpleHost.host)
                    (Cases.opened "#top" "?episode=three") eq_refl)).
    right. right. exists "three". split; reflexivity.
Defined.

Lemma permalink_round_trip_witness :
  let pg :=
    Cases.opened (urlFragment (permalinkUrl Cases.address 5 true))
      "?run=run-01" in
  noHash Cases.address
  ∧ location_hash pg = "#episode-5?spoiler=0"
  ∧ ∃ sec',
      querySection 5 (timeline (handlePermalinkOnLoad pg)) = Some sec'
      ∧ banner_expanded sec' = false.
Proof.
  intros pg.
  assert (noHash Cases.address) as Hbase.
  { apply (bool_decide_unpack _). vm_compute. exact I. }
  split; [exact Hbase|].
  destruct (querySection 5 (timeline pg)) as [sec|] eqn:Hq;
    [|vm_compute in Hq; discriminate Hq].
  destruct (permalink_round_trip (host := SimpleHost.host)
              pg Cases.address 5 true sec)
    as (Hhash & sec' & Hq' & Hb & _);
    [lia|exact Hbase|reflexivity|reflexivity|exact Hq|].
  split; [exact Hhash|]. exists sec'. split; [exact Hq'|exact Hb].
Defined.

Lemma card_ribbon_witness :
  classToken (typeOf Cases.luckyCatch)
  ∧ (∃ el, renderEvent Cases.luckyCatch = EventCard el
           ∧ el_ribbon el = Some "Pip"
           ∧ "special" ∈ el_classes el)
  ∧ ∃ el, renderEvent Cases.trade = EventCard el
          ∧ el_ribbon el = Some "Illegal Encounter".
Proof.
  assert (classToken (typeOf Cases.luckyCatch)) as Htoken
    by (repeat constructor).
  assert (classToken (typeOf Cases.trade)) as Htoken'
    by (repeat constructor).
  split; [exact Htoken|]. split.
  - eexists. split; [reflexivity|].
    destruct (card_ribbon Cases.luckyCatch _ Htoken eq_refl)
      as (_ & Hr & _ & Hc).
    split; [exact Hr|exact Hc].
  - eexists. split; [reflexivity|].
    exact (proj1 (proj2 (card_ribbon Cases.trade _ Htoken' eq_refl))).
Defined.

Lemma card_classes_witness :
  classToken (typeOf Cases.luckyCatch)
  ∧ ∃ el, renderEvent Cases.luckyCatch = EventCard el
          ∧ ("failed" ∈ el_classes el ↔ true = true)
          ∧ ("illegal" ∈ el_classes el ↔ true = false ∧ true = true).
Proof.
  assert (classToken (typeOf Cases.luckyCatch)) as Htoken
    by (repeat constructor).
  split; [exact Htoken|].
  eexists. split; [reflexivity|].
  destruct (card_classes Cases.luckyCatch _ Htoken eq_refl)
    as (_ & _ & _ & _ & Hf & Hi & _).
  split; [exact Hf|exact Hi].
Defined.

Lemma card_header_witness :
  classToken (typeOf Cases.trade)
  ∧ ∃ el, renderEvent Cases.trade = EventCard el ∧ el_header el = "Trade".
Proof.
  assert (classToken (typeOf Cases.trade)) as Htoken by (repeat constructor).
  split; [exact Htoken|].
  eexists. split; [reflexivity|].
  destruct (card_header Cases.trade _ Htoken eq_refl) as (_ & _ & Hh).
  apply Hh. apply (bool_decide_unpack _). vm_compute. exact I.
Defined.

Lemma search_narrows_witness :
  JSText.includes
    (JSString.toLowerCase (JSString.trim (JSString.or_else (Some "  pidgey ") "")))
    (JSString.toLowerCase (JSString.trim (JSString.or_else (Some "Pid") "")))
  = true
  ∧ sublist
      (selectEvents (Some "caught") (Some "  pidgey ") Cases.catalogue)
      (selectEvents (Some "caught") (Some "Pid") Cases.catalogue).
Proof.
  split; [reflexivity|].
  exact (search_narrows (Some "caught") (Some "  pidgey ") (Some "Pid")
           Cases.catalogue eq_refl).
Defined.




Lemma rules_panel_in_sync_witness :
  let p := {| panel_hidden := true; toggle_aria_expanded := "" |} in
  let p' := fold_left rulesStep [KeyOther; ClickToggle; ClickInPanel] p in
  (∃ e, e ∈ [KeyOther; ClickToggle; ClickInPanel]
        ∧ e ∈ [ClickToggle; ClickClose; KeyEscape])
  ∧ toggle_aria_expanded p' = (if panel_hidden p' then "false" else "true")
  ∧ panel_hidden p' = false.
Proof.
  intros p p'.
  assert (∃ e, e ∈ [KeyOther; ClickToggle; ClickInPanel]
               ∧ e ∈ [ClickToggle; ClickClose; KeyEscape]) as He.
  { exists ClickToggle. split; [right; left|left]. }
  split; [exact He|]. split; [|reflexivity].
  exact (proj1 (rules_panel_in_sync p [KeyOther; ClickToggle; ClickInPanel]
                  (or_intror He))).
Defined.

Lemma toggle_syncs_episode_witness :
  let pg := renderTimeline Sample.blank Sample.events in
  writable (localStorage pg) = true
  ∧ (NaN ∉ loadCollapsedMap (localStorage pg) "run-01")
  ∧ Int 1 ∈ loadCollapsedMap
              (localStorage (toggleEpisodeSection pg "run-01" 1 (Some false)))
              "run-01"
  ∧ sec_episode <$> timeline (toggleEpisodeSection pg "run-01" 1 None)
    = sec_episode <$> timeline pg.
Proof.
  intros pg.
  assert (NaN ∉ loadCollapsedMap (localStorage pg) "run-01") as Hnum.
  { apply (bool_decide_unpack _). vm_compute. exact I. }
  split; [reflexivity|]. split; [exact Hnum|].
  destruct (querySection 1 (timeline pg)) as [sec|] eqn:Hq;
    [|vm_compute in Hq; discriminate Hq].
  split.
  - exact (proj2 (proj1 (proj2 (toggle_syncs_episode (host := SimpleHost.host)
                                  SimpleHostFacts.parse_stringify
                                  SimpleHostFacts.stringify_array
                                  pg "run-01" 1 (Some false) sec
                                  Hq eq_refl Hnum))) eq_refl).
  - exact (proj2 (proj2 (proj2 (proj2
             (toggle_syncs_episode (host := SimpleHost.host)
                SimpleHostFacts.parse_stringify
                SimpleHostFacts.stringify_array
                pg "run-01" 1 None sec Hq eq_refl Hnum))))).
Defined.



End MoreWitnesses.
